(** * kindred: threshold classifier and corpus parser

    A shallow embedding of [kindred/LogisticRegressionWithThreshold.py] and
    [kindred/Parser.py], with the properties their specification states.

    Conventions of the embedding:
    - Python exceptions are values of [PyErr]; a call that may raise returns
      [res A], a loop that mutates an object and may raise returns
      [outcome S], which keeps the object as it stands at the raise.
    - Probabilities are rationals.  [predict] only compares and copies
      them (no arithmetic), the finite binary64 values embed in [Q] with
      their order, and the two sentinels [-1.0] and [-0.5] are exact.
    - Character offsets and entity identifiers are Python integers ([Z]);
      positions produced by [enumerate] are naturals. *)

From Stdlib Require Import ZArith QArith Lia Lqa.
From stdpp Require Import base option list gmap strings sorting.

(** ** Exceptions *)

Inductive PyErr : Set :=
  | AssertionError
  | AttributeError
  | IndexError
  | KeyError
  | ValueError.

Definition res (A : Type) : Type := (PyErr + A)%type.

Definition ret {A} (a : A) : res A := inr a.
Definition raise {A} (e : PyErr) : res A := inl e.

Definition bind {A B} (m : res A) (k : A -> res B) : res B :=
  match m with
  | inl e => inl e
  | inr a => k a
  end.

Notation "'do' x <~ m ;; k" := (bind m (fun x => k))
  (at level 10, x name, m at level 99, k at level 200).

(** [forM f l]: run [f] on each element in order, stop at the first raise. *)
Fixpoint forM {A B} (f : A -> res B) (l : list A) : res (list B) :=
  match l with
  | [] => ret []
  | a :: l' => do b <~ f a ;; do bs <~ forM f l' ;; ret (b :: bs)
  end.

(** [foldM f l s]: a [for] loop over [l] threading the accumulator [s]. *)
Fixpoint foldM {A S} (f : S -> A -> res S) (l : list A) (s : S) : res S :=
  match l with
  | [] => ret s
  | a :: l' => do s' <~ f s a ;; foldM f l' s'
  end.

(** ** LogisticRegressionWithThreshold.py *)

Module LogisticRegressionWithThreshold.

Section Classifier.

(** A row of the feature matrix.  The fitted estimator
    ([clf.best_estimator_]) is the map from a feature row to its row of
    class probabilities, one column per class. *)
Variable Row : Type.

Record LRWT : Type := {
  clf : option (Row -> list Q);   (* [None] until [fit] has run *)
  threshold : Q
}.

(** [__init__]: [assert threshold >= 0 and threshold <= 1]. *)
Definition init (t : Q) : res LRWT :=
  if Qle_bool 0 t && Qle_bool t 1
  then ret {| clf := None; threshold := t |}
  else raise AssertionError.

(** [fit]: the grid search is the library's; [best] is the estimator it
    selects.  The attribute [classes_] that [fit] also records is not read
    by [predict], which returns column indices. *)
Definition fit (self : LRWT) (best : Row -> list Q) : LRWT :=
  {| clf := Some best; threshold := threshold self |}.

(** [predict_proba]: [self.clf.best_estimator_.predict_proba(X)]. *)
Definition predict_proba (self : LRWT) (X : list Row) : res (list (list Q)) :=
  match clf self with
  | None => raise AttributeError
  | Some best => ret (best <$> X)
  end.

(** [probs[probs < threshold] = -1.0], on one row. *)
Definition mask (t : Q) (probs : list Q) : list Q :=
  (fun p => if Qlt_le_dec p t then (-1)%Q else p) <$> probs.

(** [probs[:,0] = -0.5], on one row; a row without column 0 is an
    [IndexError]. *)
Definition set_col0 (probs : list Q) : res (list Q) :=
  match probs with
  | [] => raise IndexError
  | _ :: rest => ret ((-1 # 2)%Q :: rest)
  end.

(** [np.argmax]: the first index holding the maximum. *)
Fixpoint argmax_from (best : nat) (bestv : Q) (i : nat) (l : list Q) : nat :=
  match l with
  | [] => best
  | x :: l' =>
      if Qlt_le_dec bestv x
      then argmax_from i x (S i) l'
      else argmax_from best bestv (S i) l'
  end.

Definition argmax (l : list Q) : res nat :=
  match l with
  | [] => raise ValueError
  | x :: l' => ret (argmax_from 0 x 1 l')
  end.

Definition predict_row (t : Q) (probs : list Q) : res nat :=
  do adjusted <~ set_col0 (mask t probs) ;;
  argmax adjusted.

(** [predict]. *)
Definition predict (self : LRWT) (X : list Row) : res (list nat) :=
  do probs <~ predict_proba self X ;;
  forM (predict_row (threshold self)) probs.

End Classifier.

(** [is_argmax l j]: [j] is the first position of the maximum of [l]. *)
Definition is_argmax (l : list Q) (j : nat) : Prop :=
  exists v, l !! j = Some v
    /\ (forall k y, l !! k = Some y -> (y <= v)%Q)
    /\ (forall k y, k < j -> l !! k = Some y -> (y < v)%Q).

(** The row that [predict] hands to [np.argmax], for a row with a column 0. *)
Definition adjusted (t : Q) (probs : list Q) : list Q :=
  (-1 # 2)%Q :: tail (mask t probs).

Arguments clf {Row} _.
Arguments threshold {Row} _.
Arguments init {Row} _.
Arguments fit {Row} _ _.
Arguments predict_proba {Row} _ _.
Arguments predict {Row} _ _.

End LogisticRegressionWithThreshold.

(** ** Python sequences *)

(** [l[k]] for a Python integer [k]: negative indices count from the end,
    anything out of range is an [IndexError]. *)
Definition getitem {A} (l : list A) (k : Z) : res A :=
  let n := Z.of_nat (length l) in
  let k' := if (k <? 0)%Z then (k + n)%Z else k in
  if ((0 <=? k') && (k' <? n))%Z
  then match l !! Z.to_nat k' with
       | Some a => ret a
       | None => raise IndexError
       end
  else raise IndexError.

(** [s[start:stop]] on a string: both bounds are taken from the end when
    negative and clipped to the string, an empty range gives [""]. *)
Definition slice (s : string) (start stop : Z) : string :=
  let n := Z.of_nat (String.length s) in
  let clip k := if (k <? 0)%Z then Z.max 0 (k + n) else Z.min k n in
  let a := clip start in
  let b := clip stop in
  String.substring (Z.to_nat a) (Z.to_nat (b - a)) s.

(** [enumerate(l)]. *)
Definition enumerate {A} (l : list A) : list (nat * A) := imap pair l.

(** A loop whose body mutates an object of type [S] in place and may
    raise: the object is kept as it stands when the exception leaves. *)
Inductive outcome (S : Type) : Type :=
  | Returned (s : S)
  | Raised (e : PyErr) (s : S).
Arguments Returned {S} _.
Arguments Raised {S} _ _.

Definition state {S} (o : outcome S) : S :=
  match o with
  | Returned s => s
  | Raised _ s => s
  end.

Fixpoint forEach {A S} (body : S -> A -> outcome S) (l : list A) (s : S)
  : outcome S :=
  match l with
  | [] => Returned s
  | a :: l' =>
      match body s a with
      | Returned s' => forEach body l' s'
      | Raised e s' => Raised e s'
      end
  end.

(** ** The [intervaltree] package

    [IntervalTree] is a mutable set of [Interval(begin, end, data)]
    triples.  [tree[a:b] = data] adds the triple and raises [ValueError]
    on a null interval ([begin >= end]); [tree[s:e]] is the set of stored
    intervals with [begin < e] and [end > s], and the empty set when
    [s >= e]. *)

Module IntervalTree.

Definition Interval : Type := (Z * Z * Z)%type.

Definition begin (iv : Interval) : Z := iv.1.1.
Definition end_ (iv : Interval) : Z := iv.1.2.
Definition data (iv : Interval) : Z := iv.2.

Definition is_null (iv : Interval) : bool := (end_ iv <=? begin iv)%Z.

Definition setitem (tree : gset Interval) (a b : Z) (d : Z)
  : res (gset Interval) :=
  if is_null (a, b, d) then raise ValueError
  else ret ({[ (a, b, d) ]} ∪ tree).

Definition overlaps (s e : Z) (iv : Interval) : Prop :=
  (begin iv < e)%Z /\ (s < end_ iv)%Z.

#[export] Instance overlaps_dec s e iv : Decision (overlaps s e iv).
Proof. unfold overlaps. apply _. Defined.

Definition query (tree : gset Interval) (s e : Z) : gset Interval :=
  if (e <=? s)%Z then ∅ else filter (overlaps s e) tree.

End IntervalTree.

(** ** The pipeline's lexical items

    A spaCy [Doc] is the sequence of its tokens; of a token, [parse] reads
    [text], [lemma_], [pos_], [idx], [i], [head.i] and [dep_]. *)

Module Spacy.

Record Token : Type := {
  text : string;
  lemma_ : string;
  pos_ : string;
  idx : Z;
  i : Z;
  head_i : Z;
  dep_ : string
}.


(** What it promises about [Token.i]: the positions of the items of a unit
    are consecutive. *)
Definition consecutive (unit : list Token) : Prop :=
  forall (k : nat) (t0 t : Token),
    unit !! 0 = Some t0 -> unit !! k = Some t ->
    i t = (i t0 + Z.of_nat k)%Z.

End Spacy.

(** ** The data containers of the package *)

(** Modelled from the spec: the class [kindred.Entity] (section 3, an
    identifier, a type label and a list of character intervals). *)
Module Entity.
Record t : Type := {
  entityType : string;
  entityID : Z;
  position : list (Z * Z)
}.
End Entity.

(** Modelled from the spec: the class [kindred.Token] (section 3), with the
    argument order of the constructor call in [parse]. *)
Module Token.
Record t : Type := {
  word : string;
  lemma : string;
  partofspeech : string;
  startPos : Z;
  endPos : Z
}.
End Token.

(** Modelled from the spec: the class [kindred.Sentence] (section 3) and its
    method [addEntityAnnotation], which attaches the entity with its list
    of token positions. *)
Module Sentence.
Record t : Type := {
  text : string;
  tokens : list Token.t;
  dependencies : list (Z * Z * string);
  sourceFilename : option string;
  entityAnnotations : list (Entity.t * list nat)
}.

Definition init (text : string) (tokens : list Token.t)
    (dependencies : list (Z * Z * string)) (sourceFilename : option string)
  : t :=
  {| text := text; tokens := tokens; dependencies := dependencies;
     sourceFilename := sourceFilename; entityAnnotations := [] |}.

Definition addEntityAnnotation (self : t) (entity : Entity.t)
    (entityLocs : list nat) : t :=
  {| text := text self; tokens := tokens self;
     dependencies := dependencies self;
     sourceFilename := sourceFilename self;
     entityAnnotations := entityAnnotations self ++ [(entity, entityLocs)] |}.
End Sentence.

(** Modelled from the spec: the class [kindred.Document] (section 3) and its
    method [addSentence], which appends to the document's sentences. *)
Module Document.
Record t : Type := {
  text : string;
  entities : list Entity.t;
  sentences : list Sentence.t;
  sourceFilename : option string
}.

Definition addSentence (self : t) (sentence : Sentence.t) : t :=
  {| text := text self; entities := entities self;
     sentences := sentences self ++ [sentence];
     sourceFilename := sourceFilename self |}.
End Document.

(** Modelled from the spec: the class [kindred.Corpus] (section 3), a list
    of documents and the flag [parsed].  The documents of a corpus are
    taken to be distinct objects. *)
Module Corpus.
Record t : Type := {
  documents : list Document.t;
  parsed : bool
}.
End Corpus.

(** ** Parser.py *)

Module Parser.

Import IntervalTree.

Local Open Scope Z_scope.

(** A [Parser] holds the name of the language model and the loaded
    pipeline [nlp], which turns a text into its sequence of lexical
    items. *)
Record t : Type := {
  model : string;
  nlp : string -> list Spacy.Token
}.

(** [_sentencesGenerator]: the whole parsed text as one unit.  The
    conversion of a Python 2 byte string is the identity on the strings of
    Python 3, which the embedding follows. *)
Definition _sentencesGenerator (self : t) (text : string)
  : list (list Spacy.Token) :=
  let parsed := nlp self text in
  [parsed].

(** [{ entity.entityID:entity for entity in d.entities }]. *)
Definition entityIDsToEntities (entities : list Entity.t)
  : gmap Z Entity.t :=
  foldl (fun m e => <[Entity.entityID e := e]> m) ∅ entities.

(** The first loop over [d.entities]: the interval tree of the non-empty
    spans, and [entityTypeLookup]. *)
Definition indexSpan (entityID : Z) (tree : gset Interval) (span : Z * Z)
  : res (gset Interval) :=
  let '(a, b) := span in
  if b >? a then setitem tree a b entityID else ret tree.

Definition indexEntity (st : gset Interval * gmap Z string) (e : Entity.t)
  : res (gset Interval * gmap Z string) :=
  let '(denotationTree, entityTypeLookup) := st in
  let entityTypeLookup :=
    <[Entity.entityID e := Entity.entityType e]> entityTypeLookup in
  do denotationTree <~
    foldM (indexSpan (Entity.entityID e)) (Entity.position e) denotationTree ;;
  ret (denotationTree, entityTypeLookup).

Definition indexEntities (entities : list Entity.t)
  : res (gset Interval * gmap Z string) :=
  foldM indexEntity entities (∅, ∅).

(** [kindred.Token(t.text,t.lemma_,t.pos_,t.idx,t.idx+len(t.text))]. *)
Definition makeToken (t : Spacy.Token) : Token.t :=
  {| Token.word := Spacy.text t;
     Token.lemma := Spacy.lemma_ t;
     Token.partofspeech := Spacy.pos_ t;
     Token.startPos := Spacy.idx t;
     Token.endPos := Spacy.idx t + Z.of_nat (String.length (Spacy.text t)) |}.

(** [(t.head.i-indexOffset,t.i-indexOffset,depName)]. *)
Definition makeDependency (indexOffset : Z) (t : Spacy.Token)
  : Z * Z * string :=
  (Spacy.head_i t - indexOffset, Spacy.i t - indexOffset, Spacy.dep_ t).

(** [entityIDsToTokenLocs[entityID].append(i)] on a [defaultdict(list)]. *)
Definition appendLoc (i : nat) (m : gmap Z (list nat)) (iv : Interval)
  : gmap Z (list nat) :=
  <[data iv := default [] (m !! data iv) ++ [i]]> m.

(** The loop over [enumerate(tokens)]; the set a query returns is walked
    in the order of [elements]. *)
Definition alignToken (denotationTree : gset Interval)
    (m : gmap Z (list nat)) (it : nat * Token.t) : gmap Z (list nat) :=
  let '(i, t) := it in
  foldl (appendLoc i) m
        (elements (query denotationTree (Token.startPos t) (Token.endPos t))).

Definition alignTokens (denotationTree : gset Interval)
    (tokens : list Token.t) : gmap Z (list nat) :=
  foldl (alignToken denotationTree) ∅ (enumerate tokens).

(** [sorted(entityIDsToTokenLocs.items())]: the keys of a dict are
    distinct, so the order of the pairs is the order of their keys. *)
Definition item_le (x y : Z * list nat) : Prop := x.1 <= y.1.

#[export] Instance item_le_dec : RelDecision item_le.
Proof. intros x y. unfold item_le. apply _. Defined.

Definition sortedItems (m : gmap Z (list nat)) : list (Z * list nat) :=
  merge_sort item_le (map_to_list m).

(** The loop that attaches the annotations. *)
Definition annotate (entityIDsToEntities : gmap Z Entity.t)
    (sentence : Sentence.t) (item : Z * list nat) : res Sentence.t :=
  let '(entityID, entityLocs) := item in
  match entityIDsToEntities !! entityID with
  | None => raise KeyError
  | Some e => ret (Sentence.addEntityAnnotation sentence e entityLocs)
  end.

(** The body of the loop over the units of a document, up to
    [d.addSentence(sentence)]. *)
Definition buildSentence (d : Document.t) (denotationTree : gset Interval)
    (entityIDsToEntities : gmap Z Entity.t) (sentence : list Spacy.Token)
  : res Sentence.t :=
  let tokens := makeToken <$> sentence in
  do first <~ getitem tokens 0 ;;
  do last <~ getitem tokens (-1) ;;
  let sentenceStart := Token.startPos first in
  let sentenceEnd := Token.endPos last in
  let sentenceTxt := slice (Document.text d) sentenceStart sentenceEnd in
  do s0 <~ getitem sentence 0 ;;
  let indexOffset := Spacy.i s0 in
  let dependencies := makeDependency indexOffset <$> sentence in
  let entityIDsToTokenLocs := alignTokens denotationTree tokens in
  let sentence :=
    Sentence.init sentenceTxt tokens dependencies
                  (Document.sourceFilename d) in
  foldM (annotate entityIDsToEntities) (sortedItems entityIDsToTokenLocs)
        sentence.

Definition parseSentence (denotationTree : gset Interval)
    (entityIDsToEntities : gmap Z Entity.t) (d : Document.t)
    (sentence : list Spacy.Token) : outcome Document.t :=
  match buildSentence d denotationTree entityIDsToEntities sentence with
  | inl e => Raised e d
  | inr s => Returned (Document.addSentence d s)
  end.

(** The body of the loop over [corpus.documents]. *)
Definition parseDocument (self : t) (d : Document.t) : outcome Document.t :=
  let ents := entityIDsToEntities (Document.entities d) in
  match indexEntities (Document.entities d) with
  | inl e => Raised e d
  | inr (denotationTree, _) =>
      forEach (parseSentence denotationTree ents)
              (_sentencesGenerator self (Document.text d)) d
  end.

(** The documents are mutated in place and in order; a raise leaves the
    later ones untouched. *)
Fixpoint parseDocuments (self : t) (ds : list Document.t)
  : outcome (list Document.t) :=
  match ds with
  | [] => Returned []
  | d :: rest =>
      match parseDocument self d with
      | Raised e d' => Raised e (d' :: rest)
      | Returned d' =>
          match parseDocuments self rest with
          | Raised e rest' => Raised e (d' :: rest')
          | Returned rest' => Returned (d' :: rest')
          end
      end
  end.

(** [parse]: the assertion on the argument's class is its type here;
    [corpus.parsed = True] is reached only without a raise. *)
Definition parse (self : t) (corpus : Corpus.t) : outcome Corpus.t :=
  match parseDocuments self (Corpus.documents corpus) with
  | Raised e ds =>
      Raised e {| Corpus.documents := ds;
                  Corpus.parsed := Corpus.parsed corpus |}
  | Returned ds =>
      Returned {| Corpus.documents := ds; Corpus.parsed := true |}
  end.

(** The list a [defaultdict(list)] gives for a key. *)
Definition locsOf (m : gmap Z (list nat)) (id : Z) : list nat :=
  default [] (m !! id).

(** No key of the dictionary holds an empty list. *)
Definition noEmptyLocs (m : gmap Z (list nat)) : Prop :=
  forall id, m !! id <> Some [].

(** Two half-open character spans overlap when they share a position. *)
Definition spansOverlap (a b s e : Z) : Prop :=
  exists x, a <= x < b /\ s <= x < e.

End Parser.

(** ** The sentence of the package's parsing test *)

Module Examples.

Import Parser.

Local Open Scope Z_scope.

Definition lexical (w : string) (idx i head : Z) (dep : string)
  : Spacy.Token :=
  {| Spacy.text := w; Spacy.lemma_ := w; Spacy.pos_ := "X";
     Spacy.idx := idx; Spacy.i := i; Spacy.head_i := head;
     Spacy.dep_ := dep |}.

Definition text : string :=
  "Erlotinib is a common treatment for lung and unknown cancers".

Definition unit : list Spacy.Token :=
  [ lexical "Erlotinib" 0 0 1 "nsubj"; lexical "is" 10 1 1 "ROOT";
    lexical "a" 13 2 4 "det"; lexical "common" 15 3 4 "amod";
    lexical "treatment" 22 4 1 "attr"; lexical "for" 32 5 4 "prep";
    lexical "lung" 36 6 5 "pobj"; lexical "and" 41 7 6 "cc";
    lexical "unknown" 45 8 9 "amod"; lexical "cancers" 53 9 6 "conj" ].

(** A pipeline that knows this one text and finds no token elsewhere. *)
Definition parser : Parser.t :=
  {| model := "en_core_web_sm";
     nlp := fun t => if String.eqb t text then unit else [] |}.

Definition drug : Entity.t :=
  {| Entity.entityType := "drug"; Entity.entityID := 1;
     Entity.position := [(0, 9)] |}.

Definition cancer : Entity.t :=
  {| Entity.entityType := "cancer"; Entity.entityID := 2;
     Entity.position := [(36, 40); (53, 60)] |}.

(** An entity with a zero-length and an inverted span only. *)
Definition hollow : Entity.t :=
  {| Entity.entityType := "gene"; Entity.entityID := 3;
     Entity.position := [(5, 5); (12, 10)] |}.

Definition document : Document.t :=
  {| Document.text := text;
     Document.entities := [cancer; drug; hollow];
     Document.sentences := [];
     Document.sourceFilename := None |}.

Definition blank : Document.t :=
  {| Document.text := EmptyString;
     Document.entities := [];
     Document.sentences := [];
     Document.sourceFilename := None |}.

Definition corpus : Corpus.t :=
  {| Corpus.documents := [document]; Corpus.parsed := false |}.

Definition corpusWithBlank : Corpus.t :=
  {| Corpus.documents := [document; blank]; Corpus.parsed := false |}.

End Examples.

(** ** Further definitions *)

(** The decision of [predict] on one row written without sentinels: the
    first maximum among the non-zero columns wins when it reaches the
    threshold, column 0 otherwise. *)
Module ThresholdDecision.

Import LogisticRegressionWithThreshold.

Definition select_row (t : Q) (probs : list Q) : res nat :=
  match probs with
  | [] => raise IndexError
  | _ :: rest =>
      match argmax rest with
      | inl _ => ret 0
      | inr j =>
          match rest !! j with
          | Some v => if Qlt_le_dec v t then ret 0 else ret (S j)
          | None => ret 0
          end
      end
  end.

End ThresholdDecision.

(** [Parser.__init__] and the class attribute [Parser._models], the
    pipelines loaded so far, keyed by model name. *)
Module ParserModels.

Import Parser.

Section Loading.

(** [spacy.load(model, disable=['ner'])] is the library's (its import is
    taken to succeed): it returns the pipeline of an installed model and
    raises otherwise; [E] is the type of what it raises. *)
Variable E : Type.
Variable load : string -> E + (string -> list Spacy.Token).

(** The constructor takes the cache as it is and gives it back as it
    leaves it, with the new parser or the exception.  The subscript
    [Parser._models[model]] raises [KeyError] on a missing key. *)
Definition __init__ (_models : gmap string (string -> list Spacy.Token))
    (model : string)
  : gmap string (string -> list Spacy.Token) * ((E + PyErr) + Parser.t) :=
  let loaded :=
    match _models !! model with
    | Some _ => inr _models
    | None =>
        match load model with
        | inl e => inl e
        | inr pipeline => inr (<[model := pipeline]> _models)
        end
    end in
  match loaded with
  | inl e => (_models, inl (inl e))
  | inr _models =>
      match _models !! model with
      | Some nlp => (_models, inr {| model := model; nlp := nlp |})
      | None => (_models, inl (inr KeyError))
      end
  end.

End Loading.

Arguments __init__ {E} _ _ _.

End ParserModels.

(** Variations of the parser's input used to state invariances. *)
Module ParserVariations.

Import IntervalTree Parser.

(** The loop over [enumerate(tokens)] with the set of a query walked in
    the order [walk] gives, for any order a set may be iterated in. *)
Definition alignTokenWith (walk : gset Interval -> list Interval)
    (denotationTree : gset Interval)
    (m : gmap Z (list nat)) (it : nat * Token.t) : gmap Z (list nat) :=
  let '(i, t) := it in
  foldl (appendLoc i) m
        (walk (query denotationTree (Token.startPos t) (Token.endPos t))).

Definition alignTokensWith (walk : gset Interval -> list Interval)
    (denotationTree : gset Interval)
    (tokens : list Token.t) : gmap Z (list nat) :=
  foldl (alignTokenWith walk denotationTree) ∅ (enumerate tokens).

(** A lexical item whose pipeline indices are moved by [c]. *)
Definition shiftIndex (c : Z) (t : Spacy.Token) : Spacy.Token :=
  {| Spacy.text := Spacy.text t; Spacy.lemma_ := Spacy.lemma_ t;
     Spacy.pos_ := Spacy.pos_ t; Spacy.idx := Spacy.idx t;
     Spacy.i := (Spacy.i t + c)%Z; Spacy.head_i := (Spacy.head_i t + c)%Z;
     Spacy.dep_ := Spacy.dep_ t |}.

(** How often a position occurs in a list of positions. *)
Definition occurrences (i : nat) (locs : list nat) : nat :=
  length (filter (fun j => j = i) locs).

End ParserVariations.

(** Data for the further properties. *)
Module MoreExamples.

Import Parser.

Local Open Scope Z_scope.

(** What the loader raises for a model that is not installed. *)
Inductive LoadError : Set := OSError.

(** A loader that knows one model. *)
Definition loader (name : string)
  : LoadError + (string -> list Spacy.Token) :=
  if String.eqb name "en_core_web_sm"
  then inr (nlp Examples.parser)
  else inl OSError.

(** A loader with nothing installed. *)
Definition noLoader (name : string)
  : LoadError + (string -> list Spacy.Token) :=
  inl OSError.

(** Two entities under one identifier, and a span stored twice. *)
Definition lungAgain : Entity.t :=
  {| Entity.entityType := "organ"; Entity.entityID := 2;
     Entity.position := [(36, 40); (36, 40); (36, 38)] |}.

Definition twins : Document.t :=
  {| Document.text := Examples.text;
     Document.entities := [Examples.cancer; lungAgain; Examples.drug];
     Document.sentences := [];
     Document.sourceFilename := None |}.

(** The pipeline of the examples with its indices counted from 100. *)
Definition shifted : Parser.t :=
  {| model := "en_core_web_sm";
     nlp := fun t =>
              ParserVariations.shiftIndex 100 <$> nlp Examples.parser t |}.

(** A pipeline that finds one token without text before the others. *)
Definition withEmptyToken : Parser.t :=
  {| model := "en_core_web_sm";
     nlp := fun t =>
              if String.eqb t Examples.text
              then Examples.lexical EmptyString 3 0 1 "dep"
                   :: (ParserVariations.shiftIndex 1 <$> Examples.unit)
              else [] |}.

End MoreExamples.

(** * Properties *)

(** ** The threshold classifier *)

Module ThresholdFacts.

Import LogisticRegressionWithThreshold.

(** *** The decision rule on one row *)

Lemma argmax_from_spec (l pre : list Q) (best : nat) (bestv : Q) :
  pre !! best = Some bestv ->
  (forall k y, pre !! k = Some y -> (y <= bestv)%Q) ->
  (forall k y, k < best -> pre !! k = Some y -> (y < bestv)%Q) ->
  exists v, (pre ++ l) !! argmax_from best bestv (length pre) l = Some v
    /\ (forall k y, (pre ++ l) !! k = Some y -> (y <= v)%Q)
    /\ (forall k y, k < argmax_from best bestv (length pre) l ->
          (pre ++ l) !! k = Some y -> (y < v)%Q).
Proof.
  revert pre best bestv.
  induction l as [|x l IH]; intros pre best bestv Hb Hmax Hfirst; simpl.
  - rewrite app_nil_r. eauto.
  - assert (Hlen : length (pre ++ [x]) = S (length pre))
      by (rewrite length_app; simpl; lia).
    replace (pre ++ x :: l) with ((pre ++ [x]) ++ l)
      by (rewrite <- app_assoc; reflexivity).
    rewrite <- Hlen.
    destruct (Qlt_le_dec bestv x) as [Hlt|Hle].
    + apply IH.
      * apply list_lookup_middle. reflexivity.
      * intros k y Hk. apply lookup_snoc_Some in Hk as [[_ Hk]|[_ ->]].
        -- apply Qlt_le_weak. eapply Qle_lt_trans; eauto.
        -- apply Qle_refl.
      * intros k y Hk Hy. apply lookup_snoc_Some in Hy as [[_ Hy]|[-> _]].
        -- eapply Qle_lt_trans; eauto.
        -- lia.
    + apply IH.
      * rewrite lookup_app_l; [exact Hb|]. eapply lookup_lt_Some; eauto.
      * intros k y Hk. apply lookup_snoc_Some in Hk as [[_ Hk]|[_ ->]]; eauto.
      * intros k y Hk Hy. apply lookup_snoc_Some in Hy as [[_ Hy]|[-> _]].
        -- eauto.
        -- apply lookup_lt_Some in Hb. lia.
Qed.

Lemma is_argmax_unique (l : list Q) (i j : nat) :
  is_argmax l i -> is_argmax l j -> i = j.
Proof.
  intros (v & Hv & Hmax & Hfirst) (w & Hw & Hmax' & Hfirst').
  destruct (lt_eq_lt_dec i j) as [[Hlt|Heq]|Hgt]; [|exact Heq|].
  - specialize (Hfirst' _ _ Hlt Hv). specialize (Hmax _ _ Hw). lra.
  - specialize (Hfirst _ _ Hgt Hw). specialize (Hmax' _ _ Hv). lra.
Qed.

Lemma argmax_is_argmax (l : list Q) :
  l <> [] -> exists j, argmax l = inr j /\ is_argmax l j.
Proof.
  destruct l as [|x l]; [congruence|]. intros _.
  exists (argmax_from 0 x 1 l). split; [reflexivity|].
  apply (argmax_from_spec l [x] 0 x).
  - reflexivity.
  - intros [|k] y Hk; simpl in Hk; [|discriminate].
    injection Hk as ->. apply Qle_refl.
  - intros k y Hk. lia.
Qed.

Lemma argmax_iff (l : list Q) (j : nat) :
  l <> [] -> argmax l = inr j <-> is_argmax l j.
Proof.
  intros Hne. destruct (argmax_is_argmax l Hne) as (j' & Hj' & Harg).
  split.
  - intros Hj. rewrite Hj in Hj'. injection Hj' as ->. exact Harg.
  - intros Hj. rewrite Hj'. f_equal. eapply is_argmax_unique; eauto.
Qed.

Lemma predict_row_adjusted (t : Q) (probs : list Q) :
  probs <> [] -> predict_row t probs = argmax (adjusted t probs).
Proof. destruct probs; [congruence|]. reflexivity. Qed.

Lemma predict_row_empty (t : Q) : predict_row t [] = inl IndexError.
Proof. reflexivity. Qed.

Lemma adjusted_lookup_0 (t : Q) (probs : list Q) :
  adjusted t probs !! 0 = Some (-1 # 2)%Q.
Proof. reflexivity. Qed.

Lemma adjusted_lookup_S (t : Q) (probs : list Q) (k : nat) :
  adjusted t probs !! S k =
  (fun p => if Qlt_le_dec p t then (-1)%Q else p) <$> probs !! S k.
Proof.
  unfold adjusted, mask. destruct probs as [|p probs]; [reflexivity|].
  simpl. apply list_lookup_fmap.
Qed.

Lemma adjusted_length (t : Q) (probs : list Q) :
  probs <> [] -> length (adjusted t probs) = length probs.
Proof.
  destruct probs; [congruence|]. intros _.
  unfold adjusted, mask. simpl. rewrite length_fmap. reflexivity.
Qed.

Lemma adjusted_nonempty (t : Q) (probs : list Q) : adjusted t probs <> [].
Proof. discriminate. Qed.

(** The adjusted value of a non-zero column. *)
Lemma adjusted_lookup_pos (t : Q) (probs : list Q) (k : nat) (q : Q) :
  k <> 0 -> probs !! k = Some q ->
  adjusted t probs !! k = Some (if Qlt_le_dec q t then (-1)%Q else q).
Proof.
  intros Hk Hq. destruct k as [|k]; [congruence|].
  rewrite adjusted_lookup_S, Hq. reflexivity.
Qed.

Lemma adjusted_lookup_pos_inv (t : Q) (probs : list Q) (k : nat) (v : Q) :
  k <> 0 -> adjusted t probs !! k = Some v ->
  exists q, probs !! k = Some q /\ v = (if Qlt_le_dec q t then (-1)%Q else q).
Proof.
  intros Hk Hv. destruct k as [|k]; [congruence|].
  rewrite adjusted_lookup_S in Hv.
  destruct (probs !! S k) as [q|]; [|discriminate].
  exists q. split; [reflexivity|]. simpl in Hv. congruence.
Qed.

(** What wins a row, in terms of the row [predict_proba] returned. *)
Lemma is_argmax_adjusted_nonzero (t : Q) (probs : list Q) (c : nat) :
  c <> 0 -> is_argmax (adjusted t probs) c ->
  exists q, probs !! c = Some q /\ (t <= q)%Q /\ (-1 # 2 < q)%Q
    /\ (forall k y, adjusted t probs !! k = Some y -> (y <= q)%Q)
    /\ (forall k y, k < c -> adjusted t probs !! k = Some y -> (y < q)%Q).
Proof.
  intros Hc (v & Hv & Hmax & Hfirst).
  destruct (adjusted_lookup_pos_inv _ _ _ _ Hc Hv) as (q & Hq & Hvq).
  assert (H0 : (-1 # 2 < v)%Q).
  { apply (Hfirst 0); [lia|]. apply adjusted_lookup_0. }
  destruct (Qlt_le_dec q t) as [Hlt|Hle].
  - subst v. lra.
  - subst v. exists q. auto.
Qed.

Lemma predict_row_rule (t : Q) (probs : list Q) :
  (0 <= t)%Q -> probs <> [] ->
  exists c, predict_row t probs = inr c
    /\ (c = 0 <-> forall k q, k <> 0 -> probs !! k = Some q -> (q < t)%Q)
    /\ (c <> 0 ->
        exists q, probs !! c = Some q /\ (t <= q)%Q
          /\ forall k q', k <> 0 -> probs !! k = Some q' ->
               (t <= q')%Q -> (q' <= q)%Q).
Proof.
  intros Ht Hne. rewrite predict_row_adjusted by exact Hne.
  destruct (argmax_is_argmax _ (adjusted_nonempty t probs))
    as (c & Hc & Harg).
  exists c. split; [exact Hc|]. split; [split|].
  - intros -> k q Hk Hq.
    destruct Harg as (v & Hv & Hmax & _).
    rewrite adjusted_lookup_0 in Hv. injection Hv as <-.
    specialize (Hmax k _ (adjusted_lookup_pos t _ _ _ Hk Hq)).
    destruct (Qlt_le_dec q t); [assumption|lra].
  - intros Hall. destruct (Nat.eq_dec c 0) as [|Hc0]; [assumption|].
    exfalso.
    destruct (is_argmax_adjusted_nonzero _ _ _ Hc0 Harg)
      as (q & Hq & Hge & _).
    specialize (Hall c q Hc0 Hq). lra.
  - intros Hc0.
    destruct (is_argmax_adjusted_nonzero _ _ _ Hc0 Harg)
      as (q & Hq & Hge & _ & Hmax & _).
    exists q. split; [exact Hq|]. split; [exact Hge|].
    intros k q' Hk Hq' Hge'.
    specialize (Hmax k _ (adjusted_lookup_pos t _ _ _ Hk Hq')).
    destruct (Qlt_le_dec q' t); [lra|assumption].
Qed.

(** Lowering the threshold keeps a non-zero winner. *)
Lemma predict_row_monotone (t1 t2 : Q) (probs : list Q) (c : nat) :
  (t1 <= t2)%Q -> c <> 0 ->
  predict_row t2 probs = inr c -> predict_row t1 probs = inr c.
Proof.
  intros Ht Hc H2.
  assert (Hne : probs <> []) by (intros ->; discriminate).
  rewrite predict_row_adjusted in * by exact Hne.
  apply argmax_iff in H2; [|apply adjusted_nonempty].
  apply argmax_iff; [apply adjusted_nonempty|].
  destruct (is_argmax_adjusted_nonzero _ _ _ Hc H2)
    as (q & Hq & Hge & Hhalf & Hmax & Hfirst).
  exists q. split; [|split].
  - rewrite (adjusted_lookup_pos t1 _ _ _ Hc Hq).
    destruct (Qlt_le_dec q t1); [lra|reflexivity].
  - intros k y Hy. destruct (Nat.eq_dec k 0) as [->|Hk].
    + rewrite adjusted_lookup_0 in Hy. injection Hy as <-. lra.
    + destruct (adjusted_lookup_pos_inv _ _ _ _ Hk Hy) as (p & Hp & ->).
      specialize (Hmax k _ (adjusted_lookup_pos t2 _ _ _ Hk Hp)).
      destruct (Qlt_le_dec p t1); [lra|].
      destruct (Qlt_le_dec p t2); [lra|assumption].
  - intros k y Hlt Hy. destruct (Nat.eq_dec k 0) as [->|Hk].
    + rewrite adjusted_lookup_0 in Hy. injection Hy as <-. lra.
    + destruct (adjusted_lookup_pos_inv _ _ _ _ Hk Hy) as (p & Hp & ->).
      specialize (Hfirst k _ Hlt (adjusted_lookup_pos t2 _ _ _ Hk Hp)).
      destruct (Qlt_le_dec p t1); [lra|].
      destruct (Qlt_le_dec p t2); [lra|assumption].
Qed.

(** *** Whole matrices *)

Lemma forM_total {A B} (f : A -> res B) (l : list A) :
  (forall a, a ∈ l -> exists b, f a = inr b) ->
  exists bs, forM f l = inr bs.
Proof.
  induction l as [|a l IH]; intros Hall; simpl.
  - eauto.
  - destruct (Hall a) as (b & Hb); [left|].
    destruct IH as (bs & Hbs); [intros; apply Hall; right; assumption|].
    rewrite Hb, Hbs. simpl. eauto.
Qed.

Lemma forM_lookup {A B} (f : A -> res B) (l : list A) (bs : list B) :
  forM f l = inr bs ->
  length bs = length l
  /\ forall r a b, l !! r = Some a -> bs !! r = Some b -> f a = inr b.
Proof.
  revert bs. induction l as [|a l IH]; intros bs; simpl.
  - intros [= <-]. split; [reflexivity|]. intros r a b Ha. discriminate.
  - destruct (f a) as [e|b0] eqn:Hfa; simpl; [discriminate|].
    destruct (forM f l) as [e|bs0]; simpl; [discriminate|].
    intros [= <-]. destruct (IH bs0 eq_refl) as (Hlen & Hrows).
    split; [simpl; congruence|].
    intros [|r] a' b'; simpl.
    + intros [= <-] [= <-]. exact Hfa.
    + apply Hrows.
Qed.

Lemma predict_fitted {Row} (self : LRWT Row) (best : Row -> list Q)
    (X : list Row) :
  clf self = Some best ->
  predict_proba self X = inr (best <$> X)
  /\ predict self X = forM (predict_row (threshold self)) (best <$> X).
Proof.
  intros Hclf. unfold predict, predict_proba. rewrite Hclf. split; reflexivity.
Qed.

Lemma init_inr {Row} (t : Q) (self : LRWT Row) :
  init t = inr self ->
  (0 <= t)%Q /\ (t <= 1)%Q /\ threshold self = t /\ clf self = None.
Proof.
  unfold init.
  destruct (Qle_bool 0 t) eqn:H0; simpl; [|discriminate].
  destruct (Qle_bool t 1) eqn:H1; simpl; [|discriminate].
  intros [= <-]. apply Qle_bool_iff in H0, H1. auto.
Qed.

Lemma predict_row_total (t : Q) (probs : list Q) :
  probs <> [] -> exists c, predict_row t probs = inr c.
Proof.
  intros Hne. rewrite predict_row_adjusted by exact Hne.
  destruct (argmax_is_argmax _ (adjusted_nonempty t probs)) as (c & Hc & _).
  eauto.
Qed.

Lemma predict_total {Row} (self : LRWT Row) (best : Row -> list Q)
    (X : list Row) :
  clf self = Some best ->
  Forall (fun x => best x <> []) X ->
  exists preds, predict self X = inr preds /\ length preds = length X
    /\ forall r x c, X !! r = Some x -> preds !! r = Some c ->
         predict_row (threshold self) (best x) = inr c.
Proof.
  intros Hclf Hrows.
  destruct (predict_fitted self best X Hclf) as (_ & ->).
  destruct (forM_total (predict_row (threshold self)) (best <$> X))
    as (preds & Hpreds).
  { intros p Hp. apply list_elem_of_fmap in Hp as (x & -> & Hx).
    apply predict_row_total. rewrite Forall_forall in Hrows. auto. }
  exists preds. split; [exact Hpreds|].
  destruct (forM_lookup _ _ _ Hpreds) as (Hlen & Hrow).
  rewrite length_fmap in Hlen. split; [exact Hlen|].
  intros r x c Hx Hc. apply (Hrow r); [|exact Hc].
  rewrite list_lookup_fmap, Hx. reflexivity.
Qed.

(** C5: constructing the classifier succeeds for every threshold in
    [0, 1], with that threshold stored, and fails with the assertion's
    error for every threshold below 0 or above 1. *)
Theorem init_accepts_exactly_unit_interval {Row : Type} (t : Q) :
  ((0 <= t)%Q /\ (t <= 1)%Q ->
     @init Row t = inr {| clf := None; threshold := t |})
  /\ ((t < 0)%Q \/ (1 < t)%Q -> @init Row t = inl AssertionError).
Proof.
  unfold init. split.
  - intros [H0 H1]. apply Qle_bool_iff in H0, H1. rewrite H0, H1. reflexivity.
  - intros Hout.
    destruct (Qle_bool 0 t) eqn:H0; simpl; [|reflexivity].
    destruct (Qle_bool t 1) eqn:H1; simpl; [|reflexivity].
    apply Qle_bool_iff in H0, H1. lra.
Qed.

Lemma init_accepts_exactly_unit_interval_witness :
  @init nat (1 # 2) = inr {| clf := None; threshold := 1 # 2 |}
  /\ @init nat (3 # 2) = inl AssertionError
  /\ @init nat (-1 # 10) = inl AssertionError.
Proof.
  split; [|split].
  - apply (proj1 (init_accepts_exactly_unit_interval (1 # 2))).
    split; discriminate.
  - apply (proj2 (init_accepts_exactly_unit_interval (3 # 2))).
    right. reflexivity.
  - apply (proj2 (init_accepts_exactly_unit_interval (-1 # 10))).
    left. reflexivity.
Defined.

(** C1: for a classifier built with threshold [t] and fitted, [predict]
    returns one class per input row; on each row it returns class 0 if and
    only if every non-zero class has a [predict_proba] probability strictly
    below [t], and otherwise a non-zero class whose probability is at least
    [t] and maximal among the non-zero classes with probability at least
    [t]. *)
Theorem predict_threshold_rule {Row : Type} (t : Q) (new self : LRWT Row)
    (best : Row -> list Q) (X : list Row) :
  init t = inr new ->
  self = fit new best ->
  Forall (fun x => best x <> []) X ->
  exists probs preds,
    predict_proba self X = inr probs
    /\ predict self X = inr preds
    /\ length probs = length X
    /\ length preds = length X
    /\ forall r p c, probs !! r = Some p -> preds !! r = Some c ->
         (c = 0 <->
            forall k q, k <> 0 -> p !! k = Some q -> (q < t)%Q)
         /\ (c <> 0 ->
             exists q, p !! c = Some q /\ (t <= q)%Q
               /\ forall k q', k <> 0 -> p !! k = Some q' ->
                    (t <= q')%Q -> (q' <= q)%Q).
Proof.
  intros Hinit -> Hrows.
  destruct (init_inr _ _ Hinit) as (H0 & _ & Hthr & _).
  assert (Hclf : clf (fit new best) = Some best) by reflexivity.
  destruct (predict_total _ _ X Hclf Hrows) as (preds & Hpreds & Hlen & Hrow).
  destruct (predict_fitted _ _ X Hclf) as (Hproba & _).
  exists (best <$> X), preds.
  split; [exact Hproba|]. split; [exact Hpreds|].
  split; [apply length_fmap|]. split; [exact Hlen|].
  intros r p c Hp Hc.
  rewrite list_lookup_fmap in Hp.
  destruct (X !! r) as [x|] eqn:Hx; [|discriminate].
  injection Hp as <-.
  specialize (Hrow r x c Hx Hc). simpl in Hrow. rewrite Hthr in Hrow.
  destruct (predict_row_rule t (best x) H0) as (c' & Hc' & Hzero & Hnz).
  { rewrite Forall_forall in Hrows. apply Hrows.
    eapply list_elem_of_lookup_2; eauto. }
  rewrite Hrow in Hc'. injection Hc' as <-. split; assumption.
Qed.

Lemma predict_threshold_rule_witness :
  exists preds,
    predict (fit {| clf := None; threshold := 1 # 2 |} (fun x : list Q => x))
            [[(1 # 10)%Q; (6 # 10)%Q; (3 # 10)%Q];
             [(9 # 10)%Q; (1 # 20)%Q; (1 # 20)%Q]] = inr preds
    /\ length preds = 2.
Proof.
  destruct (predict_threshold_rule (1 # 2)
              {| clf := None; threshold := 1 # 2 |}
              (fit {| clf := None; threshold := 1 # 2 |} (fun x => x))
              (fun x : list Q => x)
              [[(1 # 10)%Q; (6 # 10)%Q; (3 # 10)%Q];
               [(9 # 10)%Q; (1 # 20)%Q; (1 # 20)%Q]])
    as (probs & preds & _ & Hpreds & _ & Hlen & _).
  - reflexivity.
  - reflexivity.
  - repeat constructor; discriminate.
  - exists preds. split; [exact Hpreds | exact Hlen].
Defined.

(** C2: for one fitted model, one input matrix and two thresholds
    [t1 <= t2] in [0, 1], both predictions return, and on every row a
    non-zero class predicted under [t2] is also the class predicted under
    [t1]: raising the threshold turns no class 0 into a non-zero class and
    no non-zero class into another non-zero class. *)
Theorem predict_monotone_in_threshold {Row : Type} (self1 self2 : LRWT Row)
    (best : Row -> list Q) (X : list Row) :
  (0 <= threshold self1)%Q ->
  (threshold self1 <= threshold self2)%Q ->
  (threshold self2 <= 1)%Q ->
  clf self1 = Some best ->
  clf self2 = Some best ->
  Forall (fun x => best x <> []) X ->
  exists preds1 preds2,
    predict self1 X = inr preds1
    /\ predict self2 X = inr preds2
    /\ length preds1 = length X
    /\ length preds2 = length X
    /\ forall r c1 c2, preds1 !! r = Some c1 -> preds2 !! r = Some c2 ->
         (c2 <> 0 -> c1 = c2)
         /\ (c1 = 0 -> c2 = 0)
         /\ (c1 <> 0 -> c2 <> 0 -> c1 = c2).
Proof.
  intros _ Hle _ Hclf1 Hclf2 Hrows.
  destruct (predict_total _ _ X Hclf1 Hrows) as (p1 & Hp1 & Hlen1 & Hrow1).
  destruct (predict_total _ _ X Hclf2 Hrows) as (p2 & Hp2 & Hlen2 & Hrow2).
  exists p1, p2. repeat (split; [assumption|]).
  intros r c1 c2 Hc1 Hc2.
  destruct (X !! r) as [x|] eqn:Hx.
  2:{ apply lookup_ge_None in Hx. apply lookup_lt_Some in Hc1. lia. }
  specialize (Hrow1 r x c1 Hx Hc1). specialize (Hrow2 r x c2 Hx Hc2).
  assert (Hkeep : c2 <> 0 -> c1 = c2).
  { intros Hnz.
    pose proof (predict_row_monotone _ _ _ _ Hle Hnz Hrow2) as Hrow1'.
    congruence. }
  split; [exact Hkeep|]. split.
  - intros ->. destruct (Nat.eq_dec c2 0) as [|Hnz]; [assumption|].
    symmetry. auto.
  - intros _. exact Hkeep.
Qed.

Lemma predict_monotone_in_threshold_witness :
  exists preds1 preds2,
    predict {| clf := Some (fun x : list Q => x); threshold := 1 # 4 |}
            [[(1 # 10)%Q; (6 # 10)%Q; (3 # 10)%Q];
             [(4 # 10)%Q; (3 # 10)%Q; (3 # 10)%Q]] = inr preds1
    /\ predict {| clf := Some (fun x : list Q => x); threshold := 1 # 2 |}
            [[(1 # 10)%Q; (6 # 10)%Q; (3 # 10)%Q];
             [(4 # 10)%Q; (3 # 10)%Q; (3 # 10)%Q]] = inr preds2
    /\ length preds1 = 2 /\ length preds2 = 2.
Proof.
  destruct (predict_monotone_in_threshold
              {| clf := Some (fun x : list Q => x); threshold := 1 # 4 |}
              {| clf := Some (fun x : list Q => x); threshold := 1 # 2 |}
              (fun x : list Q => x)
              [[(1 # 10)%Q; (6 # 10)%Q; (3 # 10)%Q];
               [(4 # 10)%Q; (3 # 10)%Q; (3 # 10)%Q]])
    as (p1 & p2 & H1 & H2 & Hl1 & Hl2 & _).
  - discriminate.
  - discriminate.
  - discriminate.
  - reflexivity.
  - reflexivity.
  - repeat constructor; discriminate.
  - exists p1, p2. auto.
Defined.

End ThresholdFacts.

(** ** The parser *)

Module ParserFacts.

Import IntervalTree Parser.

(** *** Indexing and slicing *)

Lemma getitem_nil {A} (k : Z) : @getitem A [] k = inl IndexError.
Proof.
  unfold getitem. simpl length.
  destruct (k <? 0)%Z eqn:Hk;
    match goal with |- context [(?c1 && ?c2)] =>
      destruct (c1 && c2) end; reflexivity.
Qed.

Lemma getitem_first {A} (l : list A) (a : A) :
  l !! 0 = Some a -> getitem l 0 = inr a.
Proof.
  intros Ha. unfold getitem. simpl.
  destruct l as [|a' l]; [discriminate|]. injection Ha as ->.
  reflexivity.
Qed.

Lemma getitem_last {A} (l : list A) (a : A) :
  last l = Some a -> getitem l (-1) = inr a.
Proof.
  intros Ha. unfold getitem.
  assert (Hlen : 0 < length l) by (destruct l; [discriminate|simpl; lia]).
  change (-1 <? 0)%Z with true. cbv iota.
  replace (0 <=? -1 + Z.of_nat (length l))%Z with true
    by (symmetry; apply Z.leb_le; lia).
  replace (-1 + Z.of_nat (length l) <? Z.of_nat (length l))%Z with true
    by (symmetry; apply Z.ltb_lt; lia).
  simpl. rewrite last_lookup in Ha.
  replace (Z.to_nat (-1 + Z.of_nat (length l))) with (pred (length l)) by lia.
  rewrite Ha. reflexivity.
Qed.

Lemma last_is_Some {A} (l : list A) : l <> [] -> is_Some (last l).
Proof.
  intros Hne. rewrite last_lookup. apply lookup_lt_is_Some.
  destruct l; [congruence|simpl; lia].
Qed.

Lemma head_is_Some {A} (l : list A) : l <> [] -> is_Some (l !! 0).
Proof. destruct l; [congruence|]. intros _. eexists. reflexivity. Qed.


(** *** The interval tree of a document *)

Lemma foldM_cons {A S} (f : S -> A -> res S) (a : A) (l : list A) (s : S) :
  foldM f (a :: l) s = bind (f s a) (fun s' => foldM f l s').
Proof. reflexivity. Qed.

Lemma indexSpan_eq (id : Z) (tree : gset Interval) (a b : Z) :
  indexSpan id tree (a, b) =
  inr (if bool_decide (a < b)%Z then {[(a, b, id)]} ∪ tree else tree).
Proof.
  unfold indexSpan, setitem, is_null, end_, begin. simpl.
  case_bool_decide as Hab.
  - replace (b >? a)%Z with true by (symmetry; apply Z.gtb_lt; lia).
    replace (b <=? a)%Z with false by (symmetry; apply Z.leb_gt; lia).
    reflexivity.
  - replace (b >? a)%Z with false; [reflexivity|].
    symmetry. rewrite Z.gtb_ltb. apply Z.ltb_ge. lia.
Qed.

Lemma foldM_indexSpan (id : Z) (spans : list (Z * Z))
    (tree : gset Interval) :
  exists tree', foldM (indexSpan id) spans tree = inr tree'
    /\ forall iv, iv ∈ tree' <->
         iv ∈ tree \/ exists a b, (a, b) ∈ spans /\ (a < b)%Z /\ iv = (a, b, id).
Proof.
  revert tree. induction spans as [|[a b] spans IH]; intros tree.
  - exists tree. split; [reflexivity|]. intros iv. split; [auto|].
    intros [H|(a & b & H & _)]; [exact H|]. inversion H.
  - rewrite foldM_cons, indexSpan_eq. unfold bind.
    case_bool_decide as Hab.
    + destruct (IH ({[(a, b, id)]} ∪ tree)) as (tree' & -> & Hin).
      exists tree'. split; [reflexivity|]. intros iv. rewrite Hin.
      rewrite elem_of_union, elem_of_singleton. split.
      * intros [[->|H]|(a' & b' & H & Hlt & ->)]; [right|left|right]; eauto.
        -- exists a, b. split; [left|auto].
        -- exists a', b'. split; [right; exact H|auto].
      * intros [H|(a' & b' & H & Hlt & ->)]; [auto|].
        apply elem_of_cons in H as [[= -> ->]|H]; [auto|].
        right. eauto.
    + destruct (IH tree) as (tree' & -> & Hin).
      exists tree'. split; [reflexivity|]. intros iv. rewrite Hin. split.
      * intros [H|(a' & b' & H & Hlt & ->)]; [auto|].
        right. exists a', b'. split; [right; exact H|auto].
      * intros [H|(a' & b' & H & Hlt & ->)]; [auto|].
        apply elem_of_cons in H as [[= -> ->]|H]; [contradiction|].
        right. eauto.
Qed.

Lemma foldM_indexEntity (entities : list Entity.t)
    (tree : gset Interval) (types : gmap Z string) :
  exists tree' types',
    foldM indexEntity entities (tree, types) = inr (tree', types')
    /\ forall iv, iv ∈ tree' <->
         iv ∈ tree
         \/ exists e a b, e ∈ entities /\ (a, b) ∈ Entity.position e
              /\ (a < b)%Z /\ iv = (a, b, Entity.entityID e).
Proof.
  revert tree types.
  induction entities as [|e entities IH]; intros tree types.
  - exists tree, types. split; [reflexivity|]. intros iv. split; [auto|].
    intros [H|(e & a & b & H & _)]; [exact H|]. inversion H.
  - rewrite foldM_cons. unfold indexEntity at 1.
    destruct (foldM_indexSpan (Entity.entityID e) (Entity.position e) tree)
      as (tree1 & -> & Hin1). unfold bind, ret.
    destruct (IH tree1 (<[Entity.entityID e := Entity.entityType e]> types))
      as (tree' & types' & -> & Hin).
    exists tree', types'. split; [reflexivity|]. intros iv.
    rewrite Hin, Hin1. split.
    + intros [[H|(a & b & H & Hlt & ->)]|(e' & a & b & He & H & Hlt & ->)].
      * auto.
      * right. exists e, a, b. split; [left|auto].
      * right. exists e', a, b. split; [right; exact He|auto].
    + intros [H|(e' & a & b & He & H & Hlt & ->)]; [auto|].
      apply elem_of_cons in He as [->|He].
      * left. right. eauto.
      * right. exists e', a, b. auto.
Qed.

(** Indexing the spans of a document never raises, and the tree holds
    exactly the spans with [b > a], each tagged with its entity's
    identifier. *)
Lemma indexEntities_spec (entities : list Entity.t) :
  exists tree types,
    indexEntities entities = inr (tree, types)
    /\ forall iv, iv ∈ tree <->
         exists e a b, e ∈ entities /\ (a, b) ∈ Entity.position e
           /\ (a < b)%Z /\ iv = (a, b, Entity.entityID e).
Proof.
  destruct (foldM_indexEntity entities ∅ ∅) as (tree & types & H & Hin).
  exists tree, types. split; [exact H|]. intros iv. rewrite Hin.
  split; [|auto]. intros [H0|H1]; [|exact H1].
  apply not_elem_of_empty in H0. contradiction.
Qed.

(** *** The dictionary of entities *)

Lemma entityIDsToEntities_snoc (entities : list Entity.t) (e : Entity.t) :
  entityIDsToEntities (entities ++ [e]) =
  <[Entity.entityID e := e]> (entityIDsToEntities entities).
Proof. unfold entityIDsToEntities. rewrite foldl_snoc. reflexivity. Qed.

Lemma entityIDsToEntities_Some (entities : list Entity.t) (id : Z)
    (e : Entity.t) :
  entityIDsToEntities entities !! id = Some e ->
  e ∈ entities /\ Entity.entityID e = id.
Proof.
  induction entities as [|e' entities IH] using rev_ind.
  - unfold entityIDsToEntities. simpl. rewrite lookup_empty. discriminate.
  - rewrite entityIDsToEntities_snoc, lookup_insert. case_decide as Hid.
    + intros [= <-]. split; [|exact Hid].
      apply elem_of_app. right. left.
    + intros H. destruct (IH H) as (Hin & Heq). split; [|exact Heq].
      apply elem_of_app. left. exact Hin.
Qed.

Lemma entityIDsToEntities_is_Some (entities : list Entity.t) (e : Entity.t) :
  e ∈ entities ->
  is_Some (entityIDsToEntities entities !! Entity.entityID e).
Proof.
  induction entities as [|e' entities IH] using rev_ind.
  - intros H. inversion H.
  - rewrite entityIDsToEntities_snoc, lookup_insert. intros H.
    case_decide; [eauto|].
    apply elem_of_app in H as [H|H]; [auto|].
    apply list_elem_of_singleton in H. subst. congruence.
Qed.

(** With distinct identifiers the dictionary gives back each entity. *)
Lemma entityIDsToEntities_NoDup (entities : list Entity.t) (e : Entity.t) :
  NoDup (Entity.entityID <$> entities) ->
  e ∈ entities ->
  entityIDsToEntities entities !! Entity.entityID e = Some e.
Proof.
  intros Hnd He.
  destruct (entityIDsToEntities_is_Some _ _ He) as (e' & He').
  destruct (entityIDsToEntities_Some _ _ _ He') as (Hin' & Hid).
  rewrite He'. f_equal.
  apply list_elem_of_lookup in He as (j & Hj).
  apply list_elem_of_lookup in Hin' as (j' & Hj').
  assert (j' = j).
  { eapply NoDup_lookup; [exact Hnd| |].
    - rewrite list_lookup_fmap, Hj'. reflexivity.
    - rewrite list_lookup_fmap, Hj. simpl. congruence. }
  subst. congruence.
Qed.

(** *** Aligning tokens with entity spans *)

Lemma query_elem (tree : gset Interval) (s e : Z) (iv : Interval) :
  iv ∈ query tree s e <->
  iv ∈ tree /\ (s < e)%Z /\ (begin iv < e)%Z /\ (s < end_ iv)%Z.
Proof.
  unfold query. destruct (e <=? s)%Z eqn:Hes.
  - apply Z.leb_le in Hes. split.
    + intros H. apply not_elem_of_empty in H. contradiction.
    + intros (_ & Hlt & _). lia.
  - apply Z.leb_gt in Hes. rewrite elem_of_filter. unfold overlaps.
    split; intros H; repeat split; try apply H; assumption.
Qed.

(** A stored interval answers a query exactly when the two spans share a
    character position. *)
Lemma query_spansOverlap (tree : gset Interval) (s e a b id : Z) :
  (a < b)%Z ->
  (a, b, id) ∈ tree ->
  (a, b, id) ∈ query tree s e <-> spansOverlap a b s e.
Proof.
  intros Hab Hin. rewrite query_elem. unfold begin, end_, spansOverlap. simpl.
  split.
  - intros (_ & Hse & Hae & Hsb). exists (Z.max a s). lia.
  - intros (x & Hx1 & Hx2). repeat split; [assumption|lia..].
Qed.

Lemma appendLoc_lookup (i : nat) (m : gmap Z (list nat)) (iv : Interval)
    (id : Z) :
  locsOf (appendLoc i m iv) id =
  if decide (data iv = id) then locsOf m id ++ [i] else locsOf m id.
Proof.
  unfold locsOf, appendLoc. rewrite lookup_insert.
  case_decide as Hid; [subst|]; reflexivity.
Qed.

Lemma foldl_appendLoc_locs (i : nat) (l : list Interval)
    (m : gmap Z (list nat)) (id : Z) :
  locsOf (foldl (appendLoc i) m l) id =
  locsOf m id ++ replicate (length (filter (fun iv => data iv = id) l)) i.
Proof.
  revert m. induction l as [|iv l IH]; intros m; simpl.
  - rewrite app_nil_r. reflexivity.
  - rewrite IH, appendLoc_lookup, filter_cons.
    case_decide; simpl; [|reflexivity].
    rewrite <- app_assoc. reflexivity.
Qed.

Lemma foldl_appendLoc_noEmpty (i : nat) (l : list Interval)
    (m : gmap Z (list nat)) :
  noEmptyLocs m -> noEmptyLocs (foldl (appendLoc i) m l).
Proof.
  revert m. induction l as [|iv l IH]; intros m Hm; simpl; [exact Hm|].
  apply IH. intros id. unfold appendLoc. rewrite lookup_insert.
  case_decide as Hd.
  - intros [= H]. destruct (default [] (m !! data iv)); discriminate.
  - apply Hm.
Qed.

Lemma noEmptyLocs_lookup (m : gmap Z (list nat)) (id : Z) (locs : list nat) :
  noEmptyLocs m ->
  m !! id = Some locs <-> locsOf m id = locs /\ locs <> [].
Proof.
  intros Hm. unfold locsOf. specialize (Hm id).
  destruct (m !! id) as [l|]; simpl; split.
  - intros [= ->]. split; [reflexivity|congruence].
  - intros [-> _]. reflexivity.
  - discriminate.
  - intros [<- H]. congruence.
Qed.

Lemma alignTokens_nil (tree : gset Interval) : alignTokens tree [] = ∅.
Proof. reflexivity. Qed.

Lemma alignTokens_snoc (tree : gset Interval) (tokens : list Token.t)
    (t : Token.t) :
  alignTokens tree (tokens ++ [t]) =
  foldl (appendLoc (length tokens)) (alignTokens tree tokens)
        (elements (query tree (Token.startPos t) (Token.endPos t))).
Proof.
  unfold alignTokens, enumerate.
  rewrite imap_app, foldl_app. simpl. rewrite Nat.add_0_r. reflexivity.
Qed.

Lemma alignTokens_noEmpty (tree : gset Interval) (tokens : list Token.t) :
  noEmptyLocs (alignTokens tree tokens).
Proof.
  induction tokens as [|t tokens IH] using rev_ind.
  - intros id. rewrite alignTokens_nil, lookup_empty. discriminate.
  - rewrite alignTokens_snoc. apply foldl_appendLoc_noEmpty. exact IH.
Qed.

Lemma filter_length_ne_0 {A} (P : A -> Prop) `{!forall x, Decision (P x)}
    (l : list A) :
  length (filter P l) <> 0 <-> exists x, x ∈ l /\ P x.
Proof.
  split.
  - destruct (filter P l) as [|x l'] eqn:Hf; [simpl; congruence|].
    intros _. exists x.
    assert (Hx : x ∈ filter P l) by (rewrite Hf; left).
    apply list_elem_of_filter in Hx. tauto.
  - intros (x & Hx & HP) Hlen.
    assert (Hin : x ∈ filter P l) by (apply list_elem_of_filter; auto).
    destruct (filter P l); [inversion Hin|discriminate].
Qed.

(** Position [i] is in the list of an identifier exactly when the query
    for token [i] returns an interval of that identifier. *)
Lemma alignTokens_elem (tree : gset Interval) (tokens : list Token.t)
    (id : Z) (i : nat) :
  i ∈ locsOf (alignTokens tree tokens) id <->
  exists t iv, tokens !! i = Some t
    /\ iv ∈ query tree (Token.startPos t) (Token.endPos t)
    /\ data iv = id.
Proof.
  induction tokens as [|t tokens IH] using rev_ind.
  - rewrite alignTokens_nil. unfold locsOf. rewrite lookup_empty. simpl.
    split; [intros H; inversion H|].
    intros (t & iv & H & _). discriminate.
  - rewrite alignTokens_snoc, foldl_appendLoc_locs, elem_of_app, IH.
    rewrite elem_of_replicate, filter_length_ne_0. split.
    + intros [(t' & iv & Ht' & Hiv)|(-> & iv & Hiv & Hid)].
      * exists t', iv. split; [|exact Hiv].
        apply lookup_app_l_Some. exact Ht'.
      * exists t, iv. split; [apply list_lookup_middle; reflexivity|].
        split; [|exact Hid]. apply elem_of_elements. exact Hiv.
    + intros (t' & iv & Ht' & Hiv & Hid).
      apply lookup_snoc_Some in Ht' as [[_ Ht']|[-> ->]].
      * left. eauto.
      * right. split; [reflexivity|]. exists iv.
        split; [apply elem_of_elements; exact Hiv|exact Hid].
Qed.

Lemma StronglySorted_replicate (n : nat) (x : nat) :
  StronglySorted le (replicate n x).
Proof.
  induction n as [|n IH]; simpl; constructor; [exact IH|].
  apply Forall_forall. intros y Hy.
  apply elem_of_replicate_inv in Hy. lia.
Qed.

(** The list of an identifier is in token order. *)
Lemma alignTokens_sorted (tree : gset Interval) (tokens : list Token.t)
    (id : Z) :
  StronglySorted le (locsOf (alignTokens tree tokens) id).
Proof.
  induction tokens as [|t tokens IH] using rev_ind.
  - rewrite alignTokens_nil. unfold locsOf. rewrite lookup_empty. constructor.
  - rewrite alignTokens_snoc, foldl_appendLoc_locs.
    apply StronglySorted_app. split; [|split].
    + intros x1 x2 Hx1 Hx2.
      apply alignTokens_elem in Hx1 as (t' & _ & Ht' & _).
      apply lookup_lt_Some in Ht'.
      apply elem_of_replicate_inv in Hx2. lia.
    + exact IH.
    + apply StronglySorted_replicate.
Qed.

(** The order in which the set of a query is walked does not matter: every
    interval appends the same position. *)
Lemma appendLoc_comm (i : nat) (m : gmap Z (list nat)) (a b : Interval) :
  appendLoc i (appendLoc i m a) b = appendLoc i (appendLoc i m b) a.
Proof.
  destruct (decide (data a = data b)) as [Heq|Hne].
  - unfold appendLoc. rewrite Heq. reflexivity.
  - unfold appendLoc.
    rewrite (lookup_insert_ne _ (data a) (data b)) by exact Hne.
    rewrite (lookup_insert_ne _ (data b) (data a)) by congruence.
    apply insert_insert_ne. congruence.
Qed.

Lemma foldl_appendLoc_Permutation (i : nat) (l l' : list Interval) :
  l ≡ₚ l' ->
  forall m, foldl (appendLoc i) m l = foldl (appendLoc i) m l'.
Proof.
  induction 1 as [|x l l' _ IH|x y l|l l' l'' _ IH1 _ IH2]; intros m; simpl.
  - reflexivity.
  - apply IH.
  - rewrite appendLoc_comm. reflexivity.
  - rewrite IH1. apply IH2.
Qed.

(** *** Attaching the annotations *)

Lemma sortedItems_elem (m : gmap Z (list nat)) (id : Z) (locs : list nat) :
  (id, locs) ∈ sortedItems m <-> m !! id = Some locs.
Proof.
  unfold sortedItems. rewrite merge_sort_Permutation.
  apply elem_of_map_to_list.
Qed.

Lemma foldM_annotate (ents : gmap Z Entity.t) (items : list (Z * list nat))
    (s : Sentence.t) :
  (forall id locs, (id, locs) ∈ items -> is_Some (ents !! id)) ->
  exists s' anns,
    foldM (annotate ents) items s = inr s'
    /\ Sentence.text s' = Sentence.text s
    /\ Sentence.tokens s' = Sentence.tokens s
    /\ Sentence.dependencies s' = Sentence.dependencies s
    /\ Sentence.sourceFilename s' = Sentence.sourceFilename s
    /\ Sentence.entityAnnotations s' = Sentence.entityAnnotations s ++ anns
    /\ forall e locs, (e, locs) ∈ anns <->
         exists id, (id, locs) ∈ items /\ ents !! id = Some e.
Proof.
  revert s. induction items as [|[id locs] items IH]; intros s Hkeys.
  - exists s, []. rewrite app_nil_r. repeat (split; [reflexivity|]).
    intros e locs. split; [intros H; inversion H|].
    intros (id & H & _). inversion H.
  - rewrite foldM_cons. unfold annotate at 1.
    destruct (Hkeys id locs) as (e0 & He0); [left|]. rewrite He0.
    unfold bind, ret.
    destruct (IH (Sentence.addEntityAnnotation s e0 locs))
      as (s' & anns & -> & Htext & Htok & Hdep & Hsrc & Hann & Hin).
    { intros id' locs' H. apply (Hkeys id' locs'). right. exact H. }
    exists s', ((e0, locs) :: anns).
    split; [reflexivity|]. repeat (split; [assumption|]). split.
    + rewrite Hann. simpl. rewrite <- app_assoc. reflexivity.
    + intros e locs'. rewrite elem_of_cons, Hin. split.
      * intros [[= -> ->]|(id' & H & He)].
        -- exists id. split; [left|exact He0].
        -- exists id'. split; [right; exact H|exact He].
      * intros (id' & H & He).
        apply elem_of_cons in H as [[= -> ->]|H].
        -- left. congruence.
        -- right. eauto.
Qed.

(** *** One unit of a document *)

Lemma buildSentence_nil (d : Document.t) (tree : gset Interval)
    (ents : gmap Z Entity.t) :
  buildSentence d tree ents [] = inl IndexError.
Proof. reflexivity. Qed.

Lemma buildSentence_nonempty (d : Document.t) (tree : gset Interval)
    (ents : gmap Z Entity.t) (unit : list Spacy.Token) (t0 : Spacy.Token) :
  unit !! 0 = Some t0 ->
  (forall id locs, alignTokens tree (makeToken <$> unit) !! id = Some locs ->
     is_Some (ents !! id)) ->
  exists s,
    buildSentence d tree ents unit = inr s
    /\ Sentence.tokens s = makeToken <$> unit
    /\ Sentence.dependencies s = makeDependency (Spacy.i t0) <$> unit
    /\ Sentence.sourceFilename s = Document.sourceFilename d
    /\ forall e locs, (e, locs) ∈ Sentence.entityAnnotations s <->
         exists id, alignTokens tree (makeToken <$> unit) !! id = Some locs
           /\ ents !! id = Some e.
Proof.
  intros Ht0 Hkeys. unfold buildSentence.
  assert (Hne : makeToken <$> unit <> []) by (destruct unit; discriminate).
  rewrite (getitem_first (makeToken <$> unit) (makeToken t0))
    by (rewrite list_lookup_fmap, Ht0; reflexivity).
  destruct (last_is_Some _ Hne) as (tl & Htl).
  rewrite (getitem_last _ _ Htl), (getitem_first _ _ Ht0). unfold bind.
  match goal with |- context [foldM _ ?items ?s0] =>
    destruct (foldM_annotate ents items s0)
      as (s & anns & Hs & _ & Htok & Hdep & Hsrc & Hann & Hin)
  end.
  { intros id locs H. apply sortedItems_elem in H. eauto. }
  exists s. split; [exact Hs|].
  split; [exact Htok|]. split; [exact Hdep|]. split; [exact Hsrc|].
  intros e locs. rewrite Hann. simpl. rewrite Hin.
  split; intros (id & H & He); exists id; split; try exact He;
    apply sortedItems_elem; exact H.
Qed.

(** *** One document *)

Lemma parseDocument_empty (self : Parser.t) (d : Document.t) :
  nlp self (Document.text d) = [] ->
  parseDocument self d = Raised IndexError d.
Proof.
  intros Hnlp. unfold parseDocument, _sentencesGenerator.
  destruct (indexEntities_spec (Document.entities d))
    as (tree & types & -> & _).
  rewrite Hnlp. reflexivity.
Qed.

(** Every identifier that gets a list of positions belongs to an entity
    of the document, so the lookup in [entityIDsToEntities] finds it. *)
Lemma aligned_ids_known (entities : list Entity.t) (tree : gset Interval)
    (types : gmap Z string) (tokens : list Token.t) (id : Z)
    (locs : list nat) :
  indexEntities entities = inr (tree, types) ->
  alignTokens tree tokens !! id = Some locs ->
  is_Some (entityIDsToEntities entities !! id).
Proof.
  intros Hidx Hlocs.
  destruct (indexEntities_spec entities) as (tree' & types' & Hidx' & Htree).
  rewrite Hidx in Hidx'. injection Hidx' as <- <-.
  apply noEmptyLocs_lookup in Hlocs as (Hlocs & Hne);
    [|apply alignTokens_noEmpty].
  destruct locs as [|i locs]; [congruence|].
  assert (Hi : i ∈ locsOf (alignTokens tree tokens) id)
    by (rewrite Hlocs; left).
  apply alignTokens_elem in Hi as (t & iv & _ & Hq & <-).
  apply query_elem in Hq as (Hiv & _).
  apply Htree in Hiv as (e & a & b & He & _ & _ & ->).
  apply entityIDsToEntities_is_Some. exact He.
Qed.

Lemma parseDocument_nonempty (self : Parser.t) (d : Document.t)
    (t0 : Spacy.Token) :
  nlp self (Document.text d) !! 0 = Some t0 ->
  exists tree types s,
    indexEntities (Document.entities d) = inr (tree, types)
    /\ parseDocument self d = Returned (Document.addSentence d s)
    /\ Sentence.tokens s = makeToken <$> nlp self (Document.text d)
    /\ Sentence.dependencies s =
         makeDependency (Spacy.i t0) <$> nlp self (Document.text d)
    /\ Sentence.sourceFilename s = Document.sourceFilename d
    /\ forall e locs, (e, locs) ∈ Sentence.entityAnnotations s <->
         exists id,
           alignTokens tree (makeToken <$> nlp self (Document.text d)) !! id
             = Some locs
           /\ entityIDsToEntities (Document.entities d) !! id = Some e.
Proof.
  intros Ht0.
  destruct (indexEntities_spec (Document.entities d))
    as (tree & types & Hidx & Htree).
  destruct (buildSentence_nonempty d tree
              (entityIDsToEntities (Document.entities d))
              (nlp self (Document.text d)) t0 Ht0)
    as (s & Hs & Htok & Hdep & Hsrc & Hann).
  { intros id locs. apply (aligned_ids_known _ _ _ _ _ _ Hidx). }
  exists tree, types, s. split; [exact Hidx|].
  split; [|auto].
  unfold parseDocument, _sentencesGenerator. rewrite Hidx. simpl.
  unfold parseSentence. rewrite Hs. reflexivity.
Qed.

Lemma parseDocument_cases (self : Parser.t) (d : Document.t) :
  (nlp self (Document.text d) = []
   /\ parseDocument self d = Raised IndexError d)
  \/ (nlp self (Document.text d) <> []
      /\ exists s, parseDocument self d = Returned (Document.addSentence d s)).
Proof.
  destruct (nlp self (Document.text d)) as [|t0 unit] eqn:Hnlp.
  - left. split; [reflexivity|]. apply parseDocument_empty. exact Hnlp.
  - right. split; [discriminate|].
    destruct (parseDocument_nonempty self d t0)
      as (tree & types & s & _ & Hs & _); [rewrite Hnlp; reflexivity|].
    eauto.
Qed.

(** With distinct identifiers, an identifier names one entity. *)
Lemma entity_of_id_unique (entities : list Entity.t) (e e' : Entity.t) :
  NoDup (Entity.entityID <$> entities) ->
  e ∈ entities -> e' ∈ entities ->
  Entity.entityID e = Entity.entityID e' -> e = e'.
Proof.
  intros Hnd He He' Hid.
  pose proof (entityIDsToEntities_NoDup _ _ Hnd He) as H1.
  pose proof (entityIDsToEntities_NoDup _ _ Hnd He') as H2.
  rewrite Hid in H1. congruence.
Qed.

(** An identifier none of whose spans is non-empty gets no positions. *)
Lemma alignTokens_no_span (entities : list Entity.t) (tree : gset Interval)
    (types : gmap Z string) (tokens : list Token.t) (id : Z) :
  indexEntities entities = inr (tree, types) ->
  (forall e a b, e ∈ entities -> Entity.entityID e = id ->
     (a, b) ∈ Entity.position e -> (b <= a)%Z) ->
  alignTokens tree tokens !! id = None.
Proof.
  intros Hidx Hdeg.
  destruct (indexEntities_spec entities) as (tree' & types' & Hidx' & Htree).
  rewrite Hidx in Hidx'. injection Hidx' as <- <-.
  destruct (alignTokens tree tokens !! id) as [locs|] eqn:Hlocs;
    [exfalso|reflexivity].
  apply noEmptyLocs_lookup in Hlocs as (Hlocs & Hne);
    [|apply alignTokens_noEmpty].
  destruct locs as [|i locs]; [congruence|].
  assert (Hi : i ∈ locsOf (alignTokens tree tokens) id)
    by (rewrite Hlocs; left).
  apply alignTokens_elem in Hi as (t & iv & _ & Hq & Hid).
  apply query_elem in Hq as (Hiv & _).
  apply Htree in Hiv as (e & a & b & He & Hspan & Hlt & ->).
  specialize (Hdeg e a b He Hid Hspan). lia.
Qed.

(** C3: for a document whose entities have distinct identifiers and whose
    text has at least one token, [parse] builds a sentence in which the
    token at local index [i] is in entity [e]'s list of token positions if
    and only if [e] has a character span [a, b) with [b > a] that overlaps
    the token's span [startPos, endPos); every list attached is the list
    accumulated for the entity's identifier, unchanged, in ascending token
    order and within the sentence's tokens. *)
Theorem parse_aligns_overlapping_tokens (self : Parser.t) (d : Document.t) :
  nlp self (Document.text d) <> [] ->
  NoDup (Entity.entityID <$> Document.entities d) ->
  exists tree types s,
    indexEntities (Document.entities d) = inr (tree, types)
    /\ parseDocument self d = Returned (Document.addSentence d s)
    /\ (forall e i tok,
          e ∈ Document.entities d ->
          Sentence.tokens s !! i = Some tok ->
          (exists locs, (e, locs) ∈ Sentence.entityAnnotations s /\ i ∈ locs)
          <->
          (exists a b, (a, b) ∈ Entity.position e /\ (b > a)%Z
             /\ spansOverlap a b (Token.startPos tok) (Token.endPos tok)))
    /\ (forall e locs,
          (e, locs) ∈ Sentence.entityAnnotations s ->
          e ∈ Document.entities d
          /\ alignTokens tree (Sentence.tokens s) !! Entity.entityID e
               = Some locs
          /\ StronglySorted le locs
          /\ Forall (fun i => i < length (Sentence.tokens s)) locs).
Proof.
  intros Hne Hnd.
  destruct (head_is_Some _ Hne) as (t0 & Ht0).
  destruct (parseDocument_nonempty self d t0 Ht0)
    as (tree & types & s & Hidx & Hs & Htok & _ & _ & Hann).
  destruct (indexEntities_spec (Document.entities d))
    as (tree' & types' & Hidx' & Htree).
  rewrite Hidx in Hidx'. injection Hidx' as <- <-.
  rewrite <- Htok in Hann.
  assert (Hwf := alignTokens_noEmpty tree (Sentence.tokens s)).
  exists tree, types, s. split; [exact Hidx|]. split; [exact Hs|]. split.
  - intros e i tok He Htoki. split.
    + intros (locs & Hin & Hi).
      apply Hann in Hin as (id & Hlocs & Hent).
      apply entityIDsToEntities_Some in Hent as (_ & Hid).
      apply (noEmptyLocs_lookup _ _ _ Hwf) in Hlocs as (Hlocs & _).
      rewrite <- Hlocs in Hi.
      apply alignTokens_elem in Hi as (tok' & iv & Htok' & Hq & Hdata).
      assert (tok' = tok) by congruence. subst tok'.
      pose proof Hq as Hq'. apply query_elem in Hq' as (Hiv & _).
      pose proof Hiv as Hiv'.
      apply Htree in Hiv' as (e' & a & b & He' & Hspan & Hlt & ->).
      assert (e' = e).
      { apply (entity_of_id_unique (Document.entities d)); auto.
        unfold data in Hdata. simpl in Hdata. congruence. }
      subst e'. exists a, b. split; [exact Hspan|]. split; [lia|].
      apply (query_spansOverlap tree _ _ _ _ _ Hlt Hiv). exact Hq.
    + intros (a & b & Hspan & Hlt & Hov).
      assert (Hiv : (a, b, Entity.entityID e) ∈ tree).
      { apply Htree. exists e, a, b. repeat split; auto. lia. }
      assert (Hq : (a, b, Entity.entityID e)
                     ∈ query tree (Token.startPos tok) (Token.endPos tok)).
      { apply query_spansOverlap; [lia|exact Hiv|exact Hov]. }
      assert (Hi : i ∈ locsOf (alignTokens tree (Sentence.tokens s))
                              (Entity.entityID e)).
      { apply alignTokens_elem. exists tok, (a, b, Entity.entityID e).
        split; [exact Htoki|]. split; [exact Hq|reflexivity]. }
      exists (locsOf (alignTokens tree (Sentence.tokens s))
                     (Entity.entityID e)).
      split; [|exact Hi].
      apply Hann. exists (Entity.entityID e). split.
      * apply (noEmptyLocs_lookup _ _ _ Hwf). split; [reflexivity|].
        intros Hnil. rewrite Hnil in Hi. inversion Hi.
      * apply entityIDsToEntities_NoDup; assumption.
  - intros e locs Hin.
    apply Hann in Hin as (id & Hlocs & Hent).
    apply entityIDsToEntities_Some in Hent as (He & <-).
    split; [exact He|]. split; [exact Hlocs|].
    apply (noEmptyLocs_lookup _ _ _ Hwf) in Hlocs as (<- & _). split.
    + apply alignTokens_sorted.
    + apply Forall_forall. intros i Hi.
      apply alignTokens_elem in Hi as (tok & _ & Htoki & _).
      eapply lookup_lt_Some. exact Htoki.
Qed.

(** C7: a span [(a, b)] with [b <= a] leaves the interval tree as it is
    and raises nothing; indexing the entities of a document never raises
    and stores only spans with [a < b]; and, the identifiers being
    distinct, an entity all of whose spans have [b <= a] gets no token
    position for any token sequence and is in no annotation of a sentence
    that [parse] adds to the document. *)
Theorem degenerate_spans_are_skipped (self : Parser.t) (d : Document.t) :
  (forall id tree a b, (b <= a)%Z -> indexSpan id tree (a, b) = inr tree)
  /\ exists tree types,
       indexEntities (Document.entities d) = inr (tree, types)
       /\ (forall a b id, (a, b, id) ∈ tree -> (a < b)%Z)
       /\ forall e,
            NoDup (Entity.entityID <$> Document.entities d) ->
            e ∈ Document.entities d ->
            (forall a b, (a, b) ∈ Entity.position e -> (b <= a)%Z) ->
            (forall tokens,
               alignTokens tree tokens !! Entity.entityID e = None)
            /\ forall s locs,
                 s ∈ drop (length (Document.sentences d))
                       (Document.sentences (state (parseDocument self d))) ->
                 (e, locs) ∉ Sentence.entityAnnotations s.
Proof.
  split.
  - intros id tree a b Hba. rewrite indexSpan_eq.
    case_bool_decide; [lia|reflexivity].
  - destruct (indexEntities_spec (Document.entities d))
      as (tree & types & Hidx & Htree).
    exists tree, types. split; [exact Hidx|]. split.
    + intros a b id Hin.
      apply Htree in Hin as (e & a' & b' & _ & _ & Hlt & [= -> -> _]).
      exact Hlt.
    + intros e Hnd He Hdeg.
      assert (Hnone : forall tokens,
                 alignTokens tree tokens !! Entity.entityID e = None).
      { intros tokens. apply (alignTokens_no_span _ _ _ _ _ Hidx).
        intros e' a b He' Hid Hspan.
        assert (e' = e) by (eapply entity_of_id_unique; eauto).
        subst e'. auto. }
      split; [exact Hnone|].
      intros s locs Hs Hin.
      destruct (nlp self (Document.text d)) as [|t0 unit] eqn:Hnlp.
      * rewrite (parseDocument_empty self d Hnlp) in Hs. simpl in Hs.
        rewrite drop_all in Hs. inversion Hs.
      * destruct (parseDocument_nonempty self d t0)
          as (tree' & types' & s' & Hidx' & Hs' & _ & _ & _ & Hann);
          [rewrite Hnlp; reflexivity|].
        rewrite Hidx in Hidx'. injection Hidx' as <- <-.
        rewrite Hs' in Hs. simpl in Hs. rewrite drop_app_length in Hs.
        apply list_elem_of_singleton in Hs. subst s'.
        apply Hann in Hin as (id & Hlocs & Hent).
        apply entityIDsToEntities_Some in Hent as (_ & <-).
        rewrite Hnlp, Hnone in Hlocs. discriminate.
Qed.

(** C8: for a document with at least one token whose pipeline indices are
    consecutive, the sentence [parse] builds has one dependency per
    lexical item, and the [k]-th is (head's pipeline index minus the first
    item's index, [k], the pipeline's relation label). *)
Theorem dependencies_are_rebased (self : Parser.t) (d : Document.t) :
  nlp self (Document.text d) <> [] ->
  Spacy.consecutive (nlp self (Document.text d)) ->
  exists s t0,
    parseDocument self d = Returned (Document.addSentence d s)
    /\ nlp self (Document.text d) !! 0 = Some t0
    /\ length (Sentence.dependencies s)
       = length (nlp self (Document.text d))
    /\ length (Sentence.dependencies s) = length (Sentence.tokens s)
    /\ forall k t,
         nlp self (Document.text d) !! k = Some t ->
         Sentence.dependencies s !! k
         = Some ((Spacy.head_i t - Spacy.i t0)%Z, Z.of_nat k, Spacy.dep_ t).
Proof.
  intros Hne Hcons.
  destruct (head_is_Some _ Hne) as (t0 & Ht0).
  destruct (parseDocument_nonempty self d t0 Ht0)
    as (tree & types & s & _ & Hs & Htok & Hdep & _).
  exists s, t0. split; [exact Hs|]. split; [exact Ht0|].
  rewrite Hdep, Htok, !length_fmap. split; [reflexivity|].
  split; [reflexivity|].
  intros k t Hk. rewrite list_lookup_fmap, Hk. simpl.
  unfold makeDependency. rewrite (Hcons k t0 t Ht0 Hk).
  do 3 f_equal. lia.
Qed.


(** *** The loop over the documents *)

Lemma parseDocuments_length (self : Parser.t) (ds : list Document.t) :
  length (state (parseDocuments self ds)) = length ds.
Proof.
  induction ds as [|d ds IH]; simpl; [reflexivity|].
  destruct (parseDocument self d) as [d'|e d']; simpl; [|reflexivity].
  destruct (parseDocuments self ds) as [ds'|e ds']; simpl in *; congruence.
Qed.

(** A document is reached when every document before it has a token; it
    is processed when it has one too. *)
Lemma parseDocuments_reached (self : Parser.t) (ds : list Document.t)
    (k : nat) (d : Document.t) :
  ds !! k = Some d ->
  (forall j d', j <= k -> ds !! j = Some d' ->
     nlp self (Document.text d') <> []) ->
  exists s,
    parseDocument self d = Returned (Document.addSentence d s)
    /\ state (parseDocuments self ds) !! k = Some (Document.addSentence d s).
Proof.
  revert k. induction ds as [|d0 ds IH]; intros k Hk Hall; [discriminate|].
  destruct (parseDocument_cases self d0) as [[Hnil _]|[_ (s0 & Hs0)]].
  { exfalso. apply (Hall 0 d0); [lia|reflexivity|exact Hnil]. }
  destruct k as [|k]; simpl in Hk.
  - injection Hk as <-. exists s0. split; [exact Hs0|].
    simpl. rewrite Hs0.
    destruct (parseDocuments self ds); reflexivity.
  - destruct (IH k Hk) as (s & Hs & Hst).
    { intros j d' Hj Hd'. apply (Hall (S j) d'); [lia|exact Hd']. }
    exists s. split; [exact Hs|].
    simpl. rewrite Hs0.
    destruct (parseDocuments self ds); exact Hst.
Qed.

Lemma parseDocuments_raises (self : Parser.t) (ds : list Document.t)
    (d : Document.t) :
  d ∈ ds -> nlp self (Document.text d) = [] ->
  exists ds', parseDocuments self ds = Raised IndexError ds'.
Proof.
  induction ds as [|d0 ds IH]; intros Hin Hnil; [inversion Hin|].
  simpl.
  destruct (parseDocument_cases self d0) as [[_ ->]|[Hne (s0 & ->)]].
  - eauto.
  - apply elem_of_cons in Hin as [->|Hin]; [contradiction|].
    destruct (IH Hin Hnil) as (ds' & ->). eauto.
Qed.

Lemma parseDocuments_Returned (self : Parser.t) (ds ds1 : list Document.t) :
  parseDocuments self ds = Returned ds1 <->
  Forall2 (fun d d1 => exists s,
             parseDocument self d = Returned (Document.addSentence d s)
             /\ d1 = Document.addSentence d s) ds ds1.
Proof.
  revert ds1. induction ds as [|d ds IH]; intros ds1; simpl.
  - split.
    + intros [= <-]. constructor.
    + intros H. inversion H. reflexivity.
  - destruct (parseDocument_cases self d) as [[_ Hd]|[_ (s & Hd)]];
      rewrite Hd.
    + split; [discriminate|].
      intros H. inversion H as [|? ? ? ? (s & Hs & _)]; subst.
      rewrite Hd in Hs. discriminate.
    + destruct (parseDocuments self ds) as [ds'|e ds'] eqn:Hds.
      * split.
        -- intros [= <-]. constructor; [eauto|]. apply IH. reflexivity.
        -- intros H. inversion H as [|? ? ? ? (s' & Hs' & ->) Hrest]; subst.
           apply IH in Hrest. rewrite Hd in Hs'. congruence.
      * split; [discriminate|].
        intros H. inversion H as [|? ? ? ? _ Hrest]; subst.
        apply IH in Hrest. discriminate.
Qed.


(** C9: for a document whose unit has no token, [tokens[0]] is out of
    range and the body of [parse] raises [IndexError] with the document
    unchanged; a corpus that contains such a document makes [parse] raise
    [IndexError], and [parsed] keeps its value. *)
Theorem empty_unit_raises_IndexError (self : Parser.t) :
  (forall d,
     nlp self (Document.text d) = [] ->
     getitem (makeToken <$> nlp self (Document.text d)) 0 = inl IndexError
     /\ getitem (makeToken <$> nlp self (Document.text d)) (-1)
        = inl IndexError
     /\ parseDocument self d = Raised IndexError d)
  /\ (forall c d,
        d ∈ Corpus.documents c ->
        nlp self (Document.text d) = [] ->
        exists c', parse self c = Raised IndexError c'
          /\ Corpus.parsed c' = Corpus.parsed c).
Proof.
  split.
  - intros d Hnil. rewrite Hnil. simpl.
    split; [apply getitem_nil|]. split; [apply getitem_nil|].
    apply parseDocument_empty. exact Hnil.
  - intros c d Hin Hnil. unfold parse.
    destruct (parseDocuments_raises self _ d Hin Hnil) as (ds' & ->).
    eexists. split; reflexivity.
Qed.

(** C4: [_sentencesGenerator] gives one unit, the whole text; and a
    document with at least one token, reached by the loop of [parse]
    (no document before it is without tokens), ends with exactly one
    sentence more than it had. *)
Theorem parse_appends_one_sentence (self : Parser.t) (c : Corpus.t)
    (k : nat) (d : Document.t) :
  Corpus.documents c !! k = Some d ->
  (forall j d', j <= k -> Corpus.documents c !! j = Some d' ->
     nlp self (Document.text d') <> []) ->
  _sentencesGenerator self (Document.text d) = [nlp self (Document.text d)]
  /\ exists s d1,
       parseDocument self d = Returned d1
       /\ Corpus.documents (state (parse self c)) !! k = Some d1
       /\ Document.sentences d1 = Document.sentences d ++ [s]
       /\ length (Document.sentences d1) = S (length (Document.sentences d))
       /\ Document.text d1 = Document.text d
       /\ Document.entities d1 = Document.entities d.
Proof.
  intros Hk Hall. split; [reflexivity|].
  destruct (parseDocuments_reached self _ k d Hk Hall) as (s & Hs & Hst).
  exists s, (Document.addSentence d s).
  split; [exact Hs|]. split.
  - unfold parse.
    destruct (parseDocuments self (Corpus.documents c)); exact Hst.
  - simpl. rewrite length_app. simpl.
    repeat split; try reflexivity. lia.
Qed.



(** *** The test sentence *)

(** The expectations of [test_simpleSentenceParse]: one sentence, ten
    tokens, the drug at position 0 and the cancer at positions 6 and 9,
    in the order of the identifiers. *)
Example parse_test_sentence :
  exists s,
    parse Examples.parser Examples.corpus
    = Returned {| Corpus.documents :=
                    [Document.addSentence Examples.document s];
                  Corpus.parsed := true |}
    /\ length (Sentence.tokens s) = 10
    /\ (fun a : Entity.t * list nat => (Entity.entityType a.1, a.2))
         <$> Sentence.entityAnnotations s
       = [("drug", [0]); ("cancer", [6; 9])].
Proof.
  eexists. split; [vm_compute; reflexivity|].
  split; vm_compute; reflexivity.
Qed.

Lemma parse_aligns_overlapping_tokens_witness :
  exists s,
    parseDocument Examples.parser Examples.document
    = Returned (Document.addSentence Examples.document s).
Proof.
  destruct (parse_aligns_overlapping_tokens Examples.parser Examples.document)
    as (tree & types & s & _ & Hs & _).
  - vm_compute. discriminate.
  - apply (bool_decide_unpack _). vm_compute. exact I.
  - exists s. exact Hs.
Defined.

Lemma degenerate_spans_are_skipped_witness :
  indexSpan 3 ∅ (12, 10)%Z = inr ∅
  /\ exists tree types,
       indexEntities (Document.entities Examples.document)
       = inr (tree, types)
       /\ forall tokens, alignTokens tree tokens !! 3%Z = None.
Proof.
  split.
  - apply (proj1 (degenerate_spans_are_skipped
                    Examples.parser Examples.document)).
    lia.
  - destruct (proj2 (degenerate_spans_are_skipped
                       Examples.parser Examples.document))
      as (tree & types & Hidx & _ & Hollow).
    exists tree, types. split; [exact Hidx|].
    apply (Hollow Examples.hollow).
    + apply (bool_decide_unpack _). vm_compute. exact I.
    + right. right. left.
    + intros a b Hin. simpl in Hin.
      apply elem_of_cons in Hin as [[= -> ->]|Hin]; [lia|].
      apply elem_of_cons in Hin as [[= -> ->]|Hin]; [lia|].
      inversion Hin.
Defined.

Lemma dependencies_are_rebased_witness :
  exists s,
    parseDocument Examples.parser Examples.document
    = Returned (Document.addSentence Examples.document s)
    /\ Sentence.dependencies s !! 6 = Some (5, 6, "pobj")%Z.
Proof.
  destruct (dependencies_are_rebased Examples.parser Examples.document)
    as (s & t0 & Hs & Ht0 & _ & _ & Hdep).
  - vm_compute. discriminate.
  - intros k t0 t Ht0 Hk. vm_compute in Ht0. injection Ht0 as <-.
    change (nlp Examples.parser (Document.text Examples.document))
      with Examples.unit in Hk.
    unfold Examples.unit in Hk.
    repeat (destruct k as [|k]; [injection Hk as <-; reflexivity|]).
    discriminate.
  - exists s. split; [exact Hs|].
    vm_compute in Ht0. injection Ht0 as <-.
    apply (Hdep 6 (Examples.lexical "lung" 36 6 5 "pobj")).
    reflexivity.
Defined.


Lemma empty_unit_raises_IndexError_witness :
  parseDocument Examples.parser Examples.blank
  = Raised IndexError Examples.blank
  /\ exists c',
       parse Examples.parser Examples.corpusWithBlank = Raised IndexError c'
       /\ Corpus.parsed c' = false.
Proof.
  split.
  - apply (proj1 (empty_unit_raises_IndexError Examples.parser)
             Examples.blank).
    reflexivity.
  - apply (proj2 (empty_unit_raises_IndexError Examples.parser)
             Examples.corpusWithBlank Examples.blank).
    + right. left.
    + reflexivity.
Defined.

Lemma parse_appends_one_sentence_witness :
  exists s d1,
    Corpus.documents (state (parse Examples.parser Examples.corpusWithBlank))
      !! 0 = Some d1
    /\ Document.sentences d1 = [s].
Proof.
  destruct (parse_appends_one_sentence Examples.parser
              Examples.corpusWithBlank 0 Examples.document)
    as (_ & s & d1 & _ & Hk & Hsent & _).
  - reflexivity.
  - intros j d' Hj Hd'. assert (j = 0) by lia. subst j.
    injection Hd' as <-. vm_compute. discriminate.
  - exists s, d1. split; [exact Hk|exact Hsent].
Defined.


End ParserFacts.

(** * Further properties *)

(** ** The threshold classifier *)

Module ThresholdExtras.

Import LogisticRegressionWithThreshold ThresholdDecision ThresholdFacts.

Lemma forM_app {A B} (f : A -> res B) (l1 l2 : list A) :
  forM f (l1 ++ l2) =
  (do b1 <~ forM f l1 ;; do b2 <~ forM f l2 ;; ret (b1 ++ b2)).
Proof.
  induction l1 as [|a l1 IH]; simpl.
  - destruct (forM f l2); reflexivity.
  - destruct (f a) as [e|b]; simpl; [reflexivity|].
    rewrite IH. destruct (forM f l1) as [e|b1]; simpl; [reflexivity|].
    destruct (forM f l2); reflexivity.
Qed.

Lemma predict_row_index (t : Q) (probs : list Q) (c : nat) :
  predict_row t probs = inr c -> c < length probs.
Proof.
  intros Hc.
  assert (Hne : probs <> []) by (intros ->; discriminate).
  rewrite predict_row_adjusted in Hc by exact Hne.
  apply argmax_iff in Hc as (v & Hv & _); [|apply adjusted_nonempty].
  apply lookup_lt_Some in Hv. rewrite adjusted_length in Hv; assumption.
Qed.

(** A column that is the first maximum of the whole row, is not column 0
    and reaches the threshold wins the row. *)
Lemma predict_row_agrees_with_argmax (t : Q) (probs : list Q) (c : nat)
    (q : Q) :
  (0 <= t)%Q -> c <> 0 -> is_argmax probs c -> probs !! c = Some q ->
  (t <= q)%Q -> predict_row t probs = inr c.
Proof.
  intros Ht Hc (v & Hv & Hmax & Hfirst) Hq Hge.
  assert (v = q) by congruence. subst v.
  assert (Hne : probs <> []) by (intros ->; discriminate).
  rewrite predict_row_adjusted by exact Hne.
  apply argmax_iff; [apply adjusted_nonempty|].
  exists q. split; [|split].
  - rewrite (adjusted_lookup_pos t _ _ _ Hc Hq).
    destruct (Qlt_le_dec q t); [lra|reflexivity].
  - intros k y Hy. destruct (Nat.eq_dec k 0) as [->|Hk].
    + rewrite adjusted_lookup_0 in Hy. injection Hy as <-. lra.
    + destruct (adjusted_lookup_pos_inv _ _ _ _ Hk Hy) as (p & Hp & ->).
      specialize (Hmax k p Hp). destruct (Qlt_le_dec p t); [lra|assumption].
  - intros k y Hlt Hy. destruct (Nat.eq_dec k 0) as [->|Hk].
    + rewrite adjusted_lookup_0 in Hy. injection Hy as <-. lra.
    + destruct (adjusted_lookup_pos_inv _ _ _ _ Hk Hy) as (p & Hp & ->).
      specialize (Hfirst k p Hlt Hp).
      destruct (Qlt_le_dec p t); [lra|assumption].
Qed.





(** X2: for a fitted classifier whose probability rows have at least one
    column, every prediction is the index of a column of its row. *)
Theorem predictions_are_column_indices {Row : Type} (self : LRWT Row)
    (best : Row -> list Q) (X : list Row) :
  clf self = Some best ->
  Forall (fun x => best x <> []) X ->
  exists preds,
    predict self X = inr preds
    /\ forall r x c, X !! r = Some x -> preds !! r = Some c ->
         c < length (best x).
Proof.
  intros Hclf Hrows.
  destruct (predict_total self best X Hclf Hrows)
    as (preds & Hpreds & _ & Hrow).
  exists preds. split; [exact Hpreds|].
  intros r x c Hx Hc. eapply predict_row_index. eauto.
Qed.

Lemma predictions_are_column_indices_witness :
  exists preds,
    predict {| clf := Some (fun x : list Q => x); threshold := 1 # 2 |}
            [[(1 # 10)%Q; (6 # 10)%Q; (3 # 10)%Q]] = inr preds
    /\ forall c, preds !! 0 = Some c -> c < 3.
Proof.
  destruct (predictions_are_column_indices
              {| clf := Some (fun x : list Q => x); threshold := 1 # 2 |}
              (fun x : list Q => x)
              [[(1 # 10)%Q; (6 # 10)%Q; (3 # 10)%Q]])
    as (preds & Hpreds & Hidx).
  - reflexivity.
  - repeat constructor; discriminate.
  - exists preds. split; [exact Hpreds|].
    intros c Hc.
    apply (Hidx 0 [(1 # 10)%Q; (6 # 10)%Q; (3 # 10)%Q] c eq_refl Hc).
Defined.

Lemma predict_row_select_row (t : Q) (probs : list Q) :
  (0 <= t)%Q -> predict_row t probs = select_row t probs.
Proof.
  intros Ht. destruct probs as [|p0 rest]; [reflexivity|].
  destruct rest as [|x rest']; [reflexivity|].
  set (rest := x :: rest').
  assert (Hne : rest <> []) by discriminate.
  destruct (argmax_is_argmax rest Hne) as (j & Hj & v & Hv & Hmax & Hfirst).
  unfold select_row. fold rest. rewrite Hj, Hv.
  rewrite predict_row_adjusted by discriminate.
  assert (Hpos : forall k q, rest !! k = Some q ->
            adjusted t (p0 :: rest) !! S k
            = Some (if Qlt_le_dec q t then (-1)%Q else q)).
  { intros k q Hk. apply adjusted_lookup_pos; [lia|exact Hk]. }
  assert (Hinv : forall k y, adjusted t (p0 :: rest) !! S k = Some y ->
            exists q, rest !! k = Some q
              /\ y = (if Qlt_le_dec q t then (-1)%Q else q)).
  { intros k y Hy. apply adjusted_lookup_pos_inv in Hy; [exact Hy|lia]. }
  destruct (Qlt_le_dec v t) as [Hlt|Hge];
    (apply argmax_iff; [apply adjusted_nonempty|]).
  - exists (-1 # 2)%Q. split; [reflexivity|]. split.
    + intros [|k] y Hy.
      * rewrite adjusted_lookup_0 in Hy. injection Hy as <-. lra.
      * destruct (Hinv k y Hy) as (q & Hq & ->).
        specialize (Hmax k q Hq). destruct (Qlt_le_dec q t); lra.
    + intros k y Hk. lia.
  - exists v. split; [|split].
    + rewrite (Hpos j v Hv). destruct (Qlt_le_dec v t); [lra|reflexivity].
    + intros [|k] y Hy.
      * rewrite adjusted_lookup_0 in Hy. injection Hy as <-. lra.
      * destruct (Hinv k y Hy) as (q & Hq & ->).
        specialize (Hmax k q Hq). destruct (Qlt_le_dec q t); lra.
    + intros [|k] y Hk Hy.
      * rewrite adjusted_lookup_0 in Hy. injection Hy as <-. lra.
      * destruct (Hinv k y Hy) as (q & Hq & ->).
        assert (Hkj : k < j) by lia.
        specialize (Hfirst k q Hkj Hq). destruct (Qlt_le_dec q t); lra.
Qed.

Lemma forM_ext {A B} (f g : A -> res B) (l : list A) :
  (forall a, f a = g a) -> forM f l = forM g l.
Proof.
  intros Hfg. induction l as [|a l IH]; simpl; [reflexivity|].
  rewrite Hfg, IH. reflexivity.
Qed.

(** X3: with a threshold that is not negative, [predict] computes on every
    row the decision written without sentinels: the first maximum among
    the non-zero columns when it reaches the threshold, column 0
    otherwise; errors included. *)
Theorem predict_is_explicit_selection {Row : Type} (self : LRWT Row)
    (X : list Row) :
  (0 <= threshold self)%Q ->
  predict self X =
  (do probs <~ predict_proba self X ;;
   forM (select_row (threshold self)) probs).
Proof.
  intros Ht. unfold predict.
  destruct (predict_proba self X) as [e|probs]; simpl; [reflexivity|].
  apply forM_ext. intros p. apply predict_row_select_row. exact Ht.
Qed.

Lemma predict_is_explicit_selection_witness :
  predict {| clf := Some (fun x : list Q => x); threshold := 1 # 2 |}
          [[(1 # 10)%Q; (6 # 10)%Q; (3 # 10)%Q];
           [(4 # 10)%Q; (3 # 10)%Q; (3 # 10)%Q]]
  = inr [1; 0].
Proof.
  rewrite (predict_is_explicit_selection
             {| clf := Some (fun x : list Q => x); threshold := 1 # 2 |}).
  - reflexivity.
  - discriminate.
Defined.

(** X4: on a row whose first maximum over all columns is a non-zero
    column with probability at least the threshold, [predict] returns
    that column: there the wrapper agrees with the plain argmax. *)
Theorem predict_agrees_with_argmax {Row : Type} (self : LRWT Row)
    (best : Row -> list Q) (X : list Row) (r c : nat) (x : Row) (q : Q) :
  clf self = Some best ->
  (0 <= threshold self)%Q ->
  Forall (fun x => best x <> []) X ->
  X !! r = Some x ->
  argmax (best x) = inr c ->
  c <> 0 ->
  best x !! c = Some q ->
  (threshold self <= q)%Q ->
  exists preds, predict self X = inr preds /\ preds !! r = Some c.
Proof.
  intros Hclf Ht Hrows Hx Harg Hc Hq Hge.
  destruct (predict_total self best X Hclf Hrows)
    as (preds & Hpreds & Hlen & Hrow).
  exists preds. split; [exact Hpreds|].
  destruct (preds !! r) as [c'|] eqn:Hc'.
  - specialize (Hrow r x c' Hx Hc').
    assert (Hne : best x <> []) by (intros Hnil; rewrite Hnil in Hq;
                                    discriminate).
    apply argmax_iff in Harg; [|exact Hne].
    rewrite (predict_row_agrees_with_argmax _ _ c q Ht Hc Harg Hq Hge)
      in Hrow.
    congruence.
  - apply lookup_ge_None in Hc'. apply lookup_lt_Some in Hx. lia.
Qed.

Lemma predict_agrees_with_argmax_witness :
  exists preds,
    predict {| clf := Some (fun x : list Q => x); threshold := 1 # 2 |}
            [[(1 # 10)%Q; (3 # 10)%Q; (6 # 10)%Q]] = inr preds
    /\ preds !! 0 = Some 2.
Proof.
  apply (predict_agrees_with_argmax
           {| clf := Some (fun x : list Q => x); threshold := 1 # 2 |}
           (fun x : list Q => x)
           [[(1 # 10)%Q; (3 # 10)%Q; (6 # 10)%Q]] 0 2
           [(1 # 10)%Q; (3 # 10)%Q; (6 # 10)%Q] (6 # 10)%Q).
  - reflexivity.
  - discriminate.
  - repeat constructor; discriminate.
  - reflexivity.
  - reflexivity.
  - discriminate.
  - reflexivity.
  - discriminate.
Defined.

(** X5: with threshold 0, a row with at least two columns and no negative
    probability is never given class 0. *)
Theorem zero_threshold_never_predicts_class_0 {Row : Type} (t : Q)
    (new : LRWT Row) (best : Row -> list Q) (X : list Row) :
  init t = inr new ->
  (t == 0)%Q ->
  Forall (fun x => 2 <= length (best x)
                   /\ Forall (fun q => (0 <= q)%Q) (best x)) X ->
  exists preds,
    predict (fit new best) X = inr preds
    /\ length preds = length X
    /\ Forall (fun c => c <> 0) preds.
Proof.
  intros Hinit Hzero Hrows.
  destruct (init_inr _ _ Hinit) as (H0 & _ & Hthr & _).
  assert (Hclf : clf (fit new best) = Some best) by reflexivity.
  assert (Hne : Forall (fun x => best x <> []) X).
  { eapply Forall_impl; [exact Hrows|]. intros x [Hlen _] Hnil.
    rewrite Hnil in Hlen. simpl in Hlen. lia. }
  destruct (predict_total _ best X Hclf Hne) as (preds & Hpreds & Hlen & Hrow).
  exists preds. split; [exact Hpreds|]. split; [exact Hlen|].
  apply Forall_lookup. intros r c Hc Hc0. subst c.
  destruct (X !! r) as [x|] eqn:Hx.
  2:{ apply lookup_ge_None in Hx. apply lookup_lt_Some in Hc. lia. }
  specialize (Hrow r x 0 Hx Hc). simpl in Hrow. rewrite Hthr in Hrow.
  rewrite Forall_forall in Hrows.
  destruct (Hrows x) as (Hlen2 & Hpos);
    [eapply list_elem_of_lookup_2; eauto|].
  destruct (predict_row_rule t (best x) H0) as (c & Hc' & Hiff & _).
  { intros Hnil. rewrite Hnil in Hlen2. simpl in Hlen2. lia. }
  rewrite Hrow in Hc'. injection Hc' as <-.
  destruct (lookup_lt_is_Some_2 (best x) 1) as (q & Hq); [lia|].
  pose proof (proj1 Hiff eq_refl 1 q ltac:(lia) Hq) as Hlt.
  rewrite Forall_forall in Hpos.
  assert (0 <= q)%Q by (apply Hpos; eapply list_elem_of_lookup_2; eauto).
  lra.
Qed.

Lemma zero_threshold_never_predicts_class_0_witness :
  exists preds,
    predict (fit {| clf := None; threshold := 0 |} (fun x : list Q => x))
            [[(9 # 10)%Q; (1 # 10)%Q; 0%Q]] = inr preds
    /\ length preds = 1
    /\ Forall (fun c => c <> 0) preds.
Proof.
  apply (zero_threshold_never_predicts_class_0 0
           {| clf := None; threshold := 0 |} (fun x : list Q => x)
           [[(9 # 10)%Q; (1 # 10)%Q; 0%Q]]).
  - reflexivity.
  - reflexivity.
  - repeat constructor; simpl; try lia; discriminate.
Defined.

(** X6: the rows are decided independently: predicting a matrix made of
    two blocks of rows is predicting the first block, then the second,
    and appending the results, with the first exception met. *)
Theorem predict_app {Row : Type} (self : LRWT Row) (X1 X2 : list Row) :
  predict self (X1 ++ X2) =
  (do p1 <~ predict self X1 ;; do p2 <~ predict self X2 ;; ret (p1 ++ p2)).
Proof.
  unfold predict, predict_proba.
  destruct (clf self) as [best|]; simpl; [|reflexivity].
  rewrite fmap_app. apply forM_app.
Qed.

End ThresholdExtras.

(** ** The cache of loaded models *)

Module ParserModelsFacts.

Import Parser ParserModels.

(** X7: constructing a parser never removes or replaces an entry of
    [Parser._models]: a model name that has a pipeline keeps that
    pipeline, whether the construction succeeds or raises. *)
Theorem models_cache_only_grows {E : Type}
    (load : string -> E + (string -> list Spacy.Token))
    (_models : gmap string (string -> list Spacy.Token))
    (model name : string) (pipeline : string -> list Spacy.Token) :
  _models !! name = Some pipeline ->
  (__init__ load _models model).1 !! name = Some pipeline.
Proof.
  intros Hname. unfold __init__.
  destruct (_models !! model) as [p|] eqn:Hmodel.
  - rewrite Hmodel. exact Hname.
  - destruct (load model) as [e|p]; [exact Hname|].
    rewrite lookup_insert_eq. simpl.
    rewrite lookup_insert_ne; [exact Hname|]. congruence.
Qed.

Lemma models_cache_only_grows_witness :
  (__init__ MoreExamples.noLoader
            {[ "en_core_web_sm" := nlp Examples.parser ]} "de_core_news_sm").1
    !! "en_core_web_sm" = Some (nlp Examples.parser).
Proof.
  apply (models_cache_only_grows MoreExamples.noLoader
           {[ "en_core_web_sm" := nlp Examples.parser ]}
           "de_core_news_sm" "en_core_web_sm" (nlp Examples.parser)).
  reflexivity.
Defined.

(** X8: the [KeyError] of the subscript [Parser._models[model]] is never
    raised.  A construction that succeeds gives a parser with the model
    name asked for and the pipeline the cache now holds under that name,
    which is the one already cached or else the one just loaded; a
    construction that raises does so with the loader's exception, for a
    name that was not cached, and leaves the cache as it was. *)
Theorem init_outcomes {E : Type}
    (load : string -> E + (string -> list Spacy.Token))
    (_models : gmap string (string -> list Spacy.Token)) (model : string) :
  (__init__ load _models model).2 <> inl (inr KeyError)
  /\ (forall self,
        (__init__ load _models model).2 = inr self ->
        Parser.model self = model
        /\ (__init__ load _models model).1 !! model = Some (nlp self)
        /\ ((_models !! model = Some (nlp self)
             /\ (__init__ load _models model).1 = _models)
            \/ (_models !! model = None
                /\ load model = inr (nlp self)
                /\ (__init__ load _models model).1
                   = <[model := nlp self]> _models)))
  /\ (forall e,
        (__init__ load _models model).2 = inl (inl e) ->
        _models !! model = None
        /\ load model = inl e
        /\ (__init__ load _models model).1 = _models).
Proof.
  unfold __init__.
  destruct (_models !! model) as [p|] eqn:Hmodel.
  - rewrite Hmodel. simpl. split; [discriminate|]. split.
    + intros self [= <-]. simpl. auto.
    + intros e. discriminate.
  - destruct (load model) as [e|p] eqn:Hload.
    + simpl. split; [discriminate|]. split; [discriminate|].
      intros e' [= <-]. auto.
    + rewrite lookup_insert_eq. simpl. split; [discriminate|]. split.
      * intros self [= <-]. simpl.
        split; [reflexivity|]. split; [apply lookup_insert_eq|].
        right. auto.
      * intros e. discriminate.
Qed.

Lemma init_outcomes_witness :
  (__init__ MoreExamples.loader ∅ "en_core_web_sm").1 !! "en_core_web_sm"
  = Some (nlp Examples.parser)
  /\ (__init__ MoreExamples.noLoader ∅ "de_core_news_sm").1 = ∅.
Proof.
  split.
  - assert (Hbuilt : (__init__ MoreExamples.loader ∅ "en_core_web_sm").2
                     = inr {| model := "en_core_web_sm";
                              nlp := nlp Examples.parser |})
      by reflexivity.
    destruct (proj1 (proj2 (init_outcomes MoreExamples.loader ∅
                              "en_core_web_sm")) _ Hbuilt)
      as (_ & Hcached & _).
    exact Hcached.
  - assert (Hraised : (__init__ MoreExamples.noLoader ∅ "de_core_news_sm").2
                      = inl (inl MoreExamples.OSError))
      by reflexivity.
    apply (proj2 (proj2 (init_outcomes MoreExamples.noLoader ∅
                           "de_core_news_sm")) _ Hraised).
Defined.

(** X9: a model is loaded once: after a construction that succeeded, a
    second construction with the same model name gives the same parser
    and leaves the cache unchanged, whatever the loader would do now. *)
Theorem second_construction_reuses_pipeline {E1 E2 : Type}
    (load1 : string -> E1 + (string -> list Spacy.Token))
    (load2 : string -> E2 + (string -> list Spacy.Token))
    (_models _models1 : gmap string (string -> list Spacy.Token))
    (model : string) (self : Parser.t) :
  __init__ load1 _models model = (_models1, inr self) ->
  __init__ load2 _models1 model = (_models1, inr self).
Proof.
  unfold __init__.
  destruct (_models !! model) as [p|] eqn:Hmodel.
  - rewrite Hmodel. intros [= <- <-].
    rewrite Hmodel. simpl. rewrite Hmodel. reflexivity.
  - destruct (load1 model) as [e|p]; [discriminate|].
    rewrite lookup_insert_eq. intros [= <- <-].
    rewrite lookup_insert_eq. simpl. rewrite lookup_insert_eq. reflexivity.
Qed.

Lemma second_construction_reuses_pipeline_witness :
  __init__ MoreExamples.noLoader
           {[ "en_core_web_sm" := nlp Examples.parser ]} "en_core_web_sm"
  = ({[ "en_core_web_sm" := nlp Examples.parser ]},
     inr {| model := "en_core_web_sm"; nlp := nlp Examples.parser |}).
Proof.
  apply (second_construction_reuses_pipeline
           MoreExamples.loader MoreExamples.noLoader ∅).
  reflexivity.
Defined.

End ParserModelsFacts.

(** ** The parser *)

Module ParserExtras.

Import IntervalTree Parser ParserVariations ParserFacts.

(** *** The loop over the documents *)




Lemma parseDocuments_app (self : Parser.t) (ds1 ds2 : list Document.t) :
  parseDocuments self (ds1 ++ ds2) =
  match parseDocuments self ds1 with
  | Raised e r1 => Raised e (r1 ++ ds2)
  | Returned r1 =>
      match parseDocuments self ds2 with
      | Raised e r2 => Raised e (r1 ++ r2)
      | Returned r2 => Returned (r1 ++ r2)
      end
  end.
Proof.
  induction ds1 as [|d ds1 IH]; simpl.
  - destruct (parseDocuments self ds2); reflexivity.
  - destruct (parseDocument self d) as [d'|e d']; [|reflexivity].
    rewrite IH.
    destruct (parseDocuments self ds1) as [r1|e r1]; [|reflexivity].
    destruct (parseDocuments self ds2); reflexivity.
Qed.

Lemma parseDocuments_state (self : Parser.t) (ds : list Document.t) :
  Forall2 (fun d d' => d' = d \/ exists s, d' = Document.addSentence d s)
          ds (state (parseDocuments self ds)).
Proof.
  induction ds as [|d ds IH]; simpl; [constructor|].
  destruct (parseDocument_cases self d) as [[_ ->]|[_ (s & ->)]]; simpl.
  - constructor; [auto|].
    apply Forall2_same_length_lookup. split; [reflexivity|].
    intros k x y Hx Hy. left. congruence.
  - destruct (parseDocuments self ds) as [r|e r]; simpl in *;
      (constructor; [eauto|exact IH]).
Qed.




(** X12: the documents are processed in order and independently: parsing
    a corpus whose documents are two lists one after the other is parsing
    the first list and then, unless that raised, the second; a raise
    leaves the remaining documents as they were. *)
Theorem parse_app (self : Parser.t) (ds1 ds2 : list Document.t) (b : bool) :
  parse self {| Corpus.documents := ds1 ++ ds2; Corpus.parsed := b |} =
  match parse self {| Corpus.documents := ds1; Corpus.parsed := b |} with
  | Raised e c1 =>
      Raised e {| Corpus.documents := Corpus.documents c1 ++ ds2;
                  Corpus.parsed := b |}
  | Returned c1 =>
      match parse self {| Corpus.documents := ds2; Corpus.parsed := b |} with
      | Raised e c2 =>
          Raised e {| Corpus.documents :=
                        Corpus.documents c1 ++ Corpus.documents c2;
                      Corpus.parsed := b |}
      | Returned c2 =>
          Returned {| Corpus.documents :=
                        Corpus.documents c1 ++ Corpus.documents c2;
                      Corpus.parsed := true |}
      end
  end.
Proof.
  unfold parse. simpl. rewrite parseDocuments_app.
  destruct (parseDocuments self ds1) as [r1|e r1]; [|reflexivity].
  destruct (parseDocuments self ds2); reflexivity.
Qed.

(** X13: whatever the outcome, [parse] leaves the number of documents,
    and the text, the entities and the source file name of every document
    as they were, and only ever adds to a document's sentences: the ones
    it had stay, in place, followed by at most one new sentence. *)
Theorem parse_only_appends_sentences (self : Parser.t) (c : Corpus.t) :
  length (Corpus.documents (state (parse self c)))
  = length (Corpus.documents c)
  /\ forall k d d',
       Corpus.documents c !! k = Some d ->
       Corpus.documents (state (parse self c)) !! k = Some d' ->
       Document.text d' = Document.text d
       /\ Document.entities d' = Document.entities d
       /\ Document.sourceFilename d' = Document.sourceFilename d
       /\ (Document.sentences d' = Document.sentences d
           \/ exists s, Document.sentences d' = Document.sentences d ++ [s]).
Proof.
  assert (Hst : Corpus.documents (state (parse self c))
                = state (parseDocuments self (Corpus.documents c))).
  { unfold parse.
    destruct (parseDocuments self (Corpus.documents c)); reflexivity. }
  rewrite Hst. split; [apply parseDocuments_length|].
  intros k d d' Hd Hd'.
  pose proof (parseDocuments_state self (Corpus.documents c)) as Hall.
  destruct (Forall2_lookup_lr _ _ _ _ _ _ Hall Hd Hd') as [->|(s & ->)].
  - auto.
  - simpl. repeat split. right. eauto.
Qed.

Lemma parse_only_appends_sentences_witness :
  Document.text <$> Corpus.documents
                      (state (parse Examples.parser Examples.corpusWithBlank))
  = Document.text <$> Corpus.documents Examples.corpusWithBlank.
Proof.
  destruct (parse_only_appends_sentences Examples.parser
              Examples.corpusWithBlank) as (Hlen & Hkept).
  apply list_eq_same_length with (n := 2);
    [rewrite length_fmap; reflexivity|rewrite length_fmap; exact Hlen|].
  intros k x y _ Hx Hy.
  rewrite list_lookup_fmap in Hx, Hy.
  destruct (Corpus.documents
              (state (parse Examples.parser Examples.corpusWithBlank)) !! k)
    as [d'|] eqn:Hd'; [|discriminate].
  destruct (Corpus.documents Examples.corpusWithBlank !! k)
    as [d|] eqn:Hd; [|discriminate].
  injection Hx as <-. injection Hy as <-.
  apply (Hkept k d d' Hd Hd').
Defined.


(** *** The order of the annotations *)

Lemma foldM_annotate_Forall2 (ents : gmap Z Entity.t)
    (items : list (Z * list nat)) (s : Sentence.t) :
  (forall id locs, (id, locs) ∈ items -> is_Some (ents !! id)) ->
  exists s' anns,
    foldM (annotate ents) items s = inr s'
    /\ Sentence.entityAnnotations s' = Sentence.entityAnnotations s ++ anns
    /\ Forall2 (fun item ann => ents !! item.1 = Some ann.1
                                /\ ann.2 = item.2) items anns.
Proof.
  revert s. induction items as [|[id locs] items IH]; intros s Hkeys.
  - exists s, []. rewrite app_nil_r. split; [reflexivity|].
    split; [reflexivity|constructor].
  - rewrite foldM_cons. unfold annotate at 1.
    destruct (Hkeys id locs) as (e0 & He0); [left|]. rewrite He0.
    unfold bind, ret.
    destruct (IH (Sentence.addEntityAnnotation s e0 locs))
      as (s' & anns & -> & Hann & Hall).
    { intros id' locs' H. apply (Hkeys id' locs'). right. exact H. }
    exists s', ((e0, locs) :: anns). split; [reflexivity|]. split.
    + rewrite Hann. simpl. rewrite <- app_assoc. reflexivity.
    + constructor; [split; [exact He0|reflexivity]|exact Hall].
Qed.

Lemma item_le_Transitive : Transitive item_le.
Proof. intros x y z. unfold item_le. lia. Qed.

Lemma item_le_Total : Total item_le.
Proof. intros x y. unfold item_le. lia. Qed.

Lemma sortedItems_keys_sorted (m : gmap Z (list nat)) :
  StronglySorted Z.lt ((sortedItems m).*1).
Proof.
  assert (Hle : StronglySorted Z.le ((sortedItems m).*1)).
  { apply (StronglySorted_fmap fst item_le Z.le); [auto|].
    apply (@StronglySorted_merge_sort _ item_le _
             item_le_Transitive item_le_Total). }
  assert (Hnd : NoDup ((sortedItems m).*1)).
  { unfold sortedItems. rewrite merge_sort_Permutation.
    apply NoDup_fst_map_to_list. }
  induction Hle as [|k ks Hks IH Hall]; [constructor|].
  apply NoDup_cons in Hnd as (Hk & Hnd).
  constructor; [apply IH; exact Hnd|].
  apply Forall_forall. intros k' Hk'.
  rewrite Forall_forall in Hall. specialize (Hall k' Hk').
  assert (k <> k') by (intros ->; contradiction). lia.
Qed.

(** The sentence of a document with its annotations as the list they
    were attached in. *)
Lemma parseDocument_annotations (self : Parser.t) (d : Document.t) :
  nlp self (Document.text d) <> [] ->
  exists tree types s,
    indexEntities (Document.entities d) = inr (tree, types)
    /\ parseDocument self d = Returned (Document.addSentence d s)
    /\ Sentence.tokens s = makeToken <$> nlp self (Document.text d)
    /\ Forall2 (fun item ann =>
                  entityIDsToEntities (Document.entities d) !! item.1
                  = Some ann.1 /\ ann.2 = item.2)
               (sortedItems (alignTokens tree (Sentence.tokens s)))
               (Sentence.entityAnnotations s).
Proof.
  intros Hne. destruct (head_is_Some _ Hne) as (t0 & Ht0).
  destruct (parseDocument_nonempty self d t0 Ht0)
    as (tree & types & s & Hidx & Hs & Htok & _).
  exists tree, types, s. split; [exact Hidx|]. split; [exact Hs|].
  split; [exact Htok|].
  revert Hs. unfold parseDocument, _sentencesGenerator. rewrite Hidx. simpl.
  unfold parseSentence, buildSentence.
  assert (Hne' : makeToken <$> nlp self (Document.text d) <> [])
    by (destruct (nlp self (Document.text d)); [congruence|discriminate]).
  rewrite (getitem_first (makeToken <$> nlp self (Document.text d))
             (makeToken t0))
    by (rewrite list_lookup_fmap, Ht0; reflexivity).
  destruct (last_is_Some _ Hne') as (tl & Htl).
  rewrite (getitem_last _ _ Htl), (getitem_first _ _ Ht0). unfold bind.
  match goal with |- context [foldM _ ?items ?s0] =>
    destruct (foldM_annotate_Forall2
                (entityIDsToEntities (Document.entities d)) items s0)
      as (s' & anns & Hs' & Hann & Hall)
  end.
  { intros id locs H. apply sortedItems_elem in H.
    apply (aligned_ids_known _ _ _ _ _ _ Hidx H). }
  rewrite Hs'. intros [= H]. apply app_inv_head in H. injection H as ->.
  rewrite Hann, Htok. exact Hall.
Qed.

(** X14: the annotations of the sentence [parse] builds come in strictly
    increasing order of entity identifier, so that an identifier has at
    most one annotation. *)
Theorem annotations_ascend_by_entityID (self : Parser.t) (d : Document.t) :
  nlp self (Document.text d) <> [] ->
  exists s,
    parseDocument self d = Returned (Document.addSentence d s)
    /\ StronglySorted Z.lt
         ((fun a => Entity.entityID a.1) <$> Sentence.entityAnnotations s).
Proof.
  intros Hne.
  destruct (parseDocument_annotations self d Hne)
    as (tree & types & s & _ & Hs & _ & Hall).
  exists s. split; [exact Hs|].
  assert (Heq : (fun a : Entity.t * list nat => Entity.entityID a.1)
                  <$> Sentence.entityAnnotations s
                = (sortedItems (alignTokens tree (Sentence.tokens s))).*1).
  { induction Hall as [|item ann items anns (Hent & _) _ IH]; [reflexivity|].
    rewrite !fmap_cons, IH. f_equal.
    apply entityIDsToEntities_Some in Hent. tauto. }
  rewrite Heq. apply sortedItems_keys_sorted.
Qed.

Lemma annotations_ascend_by_entityID_witness :
  exists s,
    parseDocument Examples.parser MoreExamples.twins
    = Returned (Document.addSentence MoreExamples.twins s)
    /\ StronglySorted Z.lt
         ((fun a => Entity.entityID a.1) <$> Sentence.entityAnnotations s).
Proof.
  apply (annotations_ascend_by_entityID Examples.parser MoreExamples.twins).
  vm_compute. discriminate.
Defined.

(** *** Identifiers shared by several entities *)

(** The dictionary keeps, for an identifier, the last entity that has
    it. *)
Lemma entityIDsToEntities_last (entities : list Entity.t) (id : Z)
    (e : Entity.t) :
  entityIDsToEntities entities !! id = Some e ->
  exists before after,
    entities = before ++ e :: after
    /\ Forall (fun e' => Entity.entityID e' <> id) after.
Proof.
  induction entities as [|e' entities IH] using rev_ind.
  - unfold entityIDsToEntities. simpl. rewrite lookup_empty. discriminate.
  - rewrite entityIDsToEntities_snoc, lookup_insert. case_decide as Hid.
    + intros [= <-]. exists entities, []. split; [reflexivity|constructor].
    + intros H. destruct (IH H) as (before & after & -> & Hafter).
      exists before, (after ++ [e']). split.
      * rewrite <- app_assoc. reflexivity.
      * apply Forall_app. split; [exact Hafter|].
        constructor; [exact Hid|constructor].
Qed.

(** X15: without any assumption on the identifiers: an annotation of the
    sentence [parse] builds carries the last entity of the document that
    has its identifier and a list that is not empty, and a token position
    is in that list exactly when some entity of the document with that
    identifier has a span [a, b) with [b > a] overlapping the token; an
    identifier with such a span and token has an annotation. *)
Theorem annotations_are_keyed_by_identifier (self : Parser.t)
    (d : Document.t) :
  nlp self (Document.text d) <> [] ->
  exists s,
    parseDocument self d = Returned (Document.addSentence d s)
    /\ (forall e locs,
          (e, locs) ∈ Sentence.entityAnnotations s ->
          locs <> []
          /\ (exists before after,
                Document.entities d = before ++ e :: after
                /\ Forall (fun e' => Entity.entityID e'
                                     <> Entity.entityID e) after)
          /\ forall i tok,
               Sentence.tokens s !! i = Some tok ->
               i ∈ locs <->
               exists e' a b,
                 e' ∈ Document.entities d
                 /\ Entity.entityID e' = Entity.entityID e
                 /\ (a, b) ∈ Entity.position e' /\ (b > a)%Z
                 /\ spansOverlap a b (Token.startPos tok)
                                 (Token.endPos tok))
    /\ (forall e' a b i tok,
          e' ∈ Document.entities d ->
          (a, b) ∈ Entity.position e' -> (b > a)%Z ->
          Sentence.tokens s !! i = Some tok ->
          spansOverlap a b (Token.startPos tok) (Token.endPos tok) ->
          exists e locs,
            (e, locs) ∈ Sentence.entityAnnotations s
            /\ Entity.entityID e = Entity.entityID e' /\ i ∈ locs).
Proof.
  intros Hne. destruct (head_is_Some _ Hne) as (t0 & Ht0).
  destruct (parseDocument_nonempty self d t0 Ht0)
    as (tree & types & s & Hidx & Hs & Htok & _ & _ & Hann).
  destruct (indexEntities_spec (Document.entities d))
    as (tree' & types' & Hidx' & Htree).
  rewrite Hidx in Hidx'. injection Hidx' as <- <-.
  rewrite <- Htok in Hann.
  assert (Hwf := alignTokens_noEmpty tree (Sentence.tokens s)).
  assert (Helem : forall id i tok,
             Sentence.tokens s !! i = Some tok ->
             i ∈ locsOf (alignTokens tree (Sentence.tokens s)) id <->
             exists e' a b,
               e' ∈ Document.entities d /\ Entity.entityID e' = id
               /\ (a, b) ∈ Entity.position e' /\ (b > a)%Z
               /\ spansOverlap a b (Token.startPos tok) (Token.endPos tok)).
  { intros id i tok Htoki. rewrite alignTokens_elem. split.
    - intros (tok' & iv & Htok' & Hq & Hdata).
      assert (tok' = tok) by congruence. subst tok'.
      pose proof Hq as Hq'. apply query_elem in Hq' as (Hiv & _).
      pose proof Hiv as Hiv'.
      apply Htree in Hiv' as (e' & a & b & He' & Hspan & Hlt & ->).
      exists e', a, b. split; [exact He'|]. split; [exact Hdata|].
      split; [exact Hspan|]. split; [lia|].
      apply (query_spansOverlap tree _ _ _ _ _ Hlt Hiv). exact Hq.
    - intros (e' & a & b & He' & Hid & Hspan & Hlt & Hov).
      exists tok, (a, b, Entity.entityID e'). split; [exact Htoki|].
      split; [|exact Hid].
      assert (Hiv : (a, b, Entity.entityID e') ∈ tree).
      { apply Htree. exists e', a, b. repeat split; auto. lia. }
      apply query_spansOverlap; [lia|exact Hiv|exact Hov]. }
  exists s. split; [exact Hs|]. split.
  - intros e locs Hin.
    apply Hann in Hin as (id & Hlocs & Hent).
    pose proof (entityIDsToEntities_Some _ _ _ Hent) as (_ & Hid).
    apply (noEmptyLocs_lookup _ _ _ Hwf) in Hlocs as (Hlocs & Hnil).
    split; [exact Hnil|]. split.
    + rewrite Hid. apply entityIDsToEntities_last. exact Hent.
    + intros i tok Htoki. rewrite <- Hlocs, Hid. apply Helem. exact Htoki.
  - intros e' a b i tok He' Hspan Hlt Htoki Hov.
    assert (Hi : i ∈ locsOf (alignTokens tree (Sentence.tokens s))
                            (Entity.entityID e')).
    { apply (Helem _ _ _ Htoki). exists e', a, b. auto. }
    destruct (entityIDsToEntities_is_Some _ _ He') as (e & He).
    exists e, (locsOf (alignTokens tree (Sentence.tokens s))
                      (Entity.entityID e')).
    split; [|split; [|exact Hi]].
    + apply Hann. exists (Entity.entityID e'). split; [|exact He].
      apply (noEmptyLocs_lookup _ _ _ Hwf). split; [reflexivity|].
      intros Hnil. rewrite Hnil in Hi. inversion Hi.
    + apply entityIDsToEntities_Some in He. tauto.
Qed.

Lemma annotations_are_keyed_by_identifier_witness :
  exists s,
    parseDocument Examples.parser MoreExamples.twins
    = Returned (Document.addSentence MoreExamples.twins s)
    /\ forall e locs,
         (e, locs) ∈ Sentence.entityAnnotations s -> locs <> [].
Proof.
  destruct (annotations_are_keyed_by_identifier
              Examples.parser MoreExamples.twins)
    as (s & Hs & Hann & _).
  - vm_compute. discriminate.
  - exists s. split; [exact Hs|]. intros e locs Hin.
    apply (Hann e locs Hin).
Defined.

(** *** How often a position occurs *)

Lemma filter_eq_replicate (i n c : nat) :
  length (filter (fun j => j = i) (replicate c n))
  = if decide (n = i) then c else 0.
Proof.
  destruct (decide (n = i)) as [Hn|Hn];
    induction c as [|c IH]; simpl; try reflexivity;
    rewrite filter_cons; [rewrite decide_True by exact Hn
                         |rewrite decide_False by exact Hn];
    simpl; rewrite IH; reflexivity.
Qed.

Lemma filter_elements_size (P : Interval -> Prop)
    `{!forall iv, Decision (P iv)} (q : gset Interval) :
  length (filter P (elements q)) = size (filter P q).
Proof.
  unfold size, set_size. simpl. apply Permutation_length.
  apply NoDup_Permutation.
  - apply NoDup_filter, NoDup_elements.
  - apply NoDup_elements.
  - intros iv. rewrite list_elem_of_filter, !elem_of_elements, elem_of_filter.
    reflexivity.
Qed.

Lemma alignTokens_occurrences (tree : gset Interval)
    (tokens : list Token.t) (id : Z) (i : nat) (t : Token.t) :
  tokens !! i = Some t ->
  occurrences i (locsOf (alignTokens tree tokens) id)
  = size (filter (fun iv => data iv = id)
                 (query tree (Token.startPos t) (Token.endPos t))).
Proof.
  unfold occurrences.
  induction tokens as [|t' tokens IH] using rev_ind; [discriminate|].
  intros Ht. rewrite alignTokens_snoc, foldl_appendLoc_locs, filter_app.
  rewrite length_app, filter_eq_replicate.
  apply lookup_snoc_Some in Ht as [[Hlt Ht]|[-> ->]].
  - rewrite (IH Ht). rewrite decide_False by lia. lia.
  - rewrite decide_True by reflexivity.
    rewrite filter_elements_size.
    assert (Hnone : filter (fun j => j = length tokens)
                      (locsOf (alignTokens tree tokens) id) = []).
    { destruct (filter _ _) as [|j l] eqn:Hf; [reflexivity|].
      assert (Hj : j ∈ filter (fun j => j = length tokens)
                     (locsOf (alignTokens tree tokens) id))
        by (rewrite Hf; left).
      apply list_elem_of_filter in Hj as (-> & Hj).
      apply alignTokens_elem in Hj as (t0 & _ & Ht0 & _).
      apply lookup_lt_Some in Ht0. lia. }
    rewrite Hnone. reflexivity.
Qed.

(** X16: in an annotation of the sentence [parse] builds, the position of
    a token occurs as many times as the interval tree of the document
    holds intervals of the entity's identifier that the query for the
    token returns: once per distinct overlapping span, a span listed
    twice counting once. *)
Theorem position_occurs_once_per_overlapping_interval (self : Parser.t)
    (d : Document.t) :
  nlp self (Document.text d) <> [] ->
  exists tree types s,
    indexEntities (Document.entities d) = inr (tree, types)
    /\ parseDocument self d = Returned (Document.addSentence d s)
    /\ forall e locs i tok,
         (e, locs) ∈ Sentence.entityAnnotations s ->
         Sentence.tokens s !! i = Some tok ->
         occurrences i locs
         = size (filter (fun iv => data iv = Entity.entityID e)
                        (query tree (Token.startPos tok)
                               (Token.endPos tok))).
Proof.
  intros Hne. destruct (head_is_Some _ Hne) as (t0 & Ht0).
  destruct (parseDocument_nonempty self d t0 Ht0)
    as (tree & types & s & Hidx & Hs & Htok & _ & _ & Hann).
  rewrite <- Htok in Hann.
  exists tree, types, s. split; [exact Hidx|]. split; [exact Hs|].
  intros e locs i tok Hin Htoki.
  apply Hann in Hin as (id & Hlocs & Hent).
  apply entityIDsToEntities_Some in Hent as (_ & ->).
  apply (noEmptyLocs_lookup _ _ _ (alignTokens_noEmpty _ _)) in Hlocs
    as (<- & _).
  apply alignTokens_occurrences. exact Htoki.
Qed.

Lemma position_occurs_once_per_overlapping_interval_witness :
  exists s,
    parseDocument Examples.parser MoreExamples.twins
    = Returned (Document.addSentence MoreExamples.twins s)
    /\ forall e locs,
         (e, locs) ∈ Sentence.entityAnnotations s ->
         Entity.entityID e = 2%Z ->
         occurrences 6 locs = 2.
Proof.
  destruct (position_occurs_once_per_overlapping_interval
              Examples.parser MoreExamples.twins)
    as (tree & types & s & Hidx & Hs & Hocc).
  - vm_compute. discriminate.
  - exists s. split; [exact Hs|]. intros e locs Hin Hid.
    assert (Htok : Sentence.tokens s !! 6
                   = Some (makeToken (Examples.lexical "lung" 36 6 5 "pobj"))).
    { revert Hs. vm_compute. intros [= <-]. reflexivity. }
    rewrite (Hocc e locs 6 _ Hin Htok), Hid.
    revert Hidx. vm_compute. intros [= <- _]. reflexivity.
Defined.

(** *** Tokens without text *)

(** X17: a token whose surface text is empty has an empty character span,
    for which the interval tree returns nothing: its position is in no
    annotation of the sentence [parse] builds, wherever it lies. *)
Theorem token_without_text_is_never_aligned (self : Parser.t)
    (d : Document.t) :
  nlp self (Document.text d) <> [] ->
  exists s,
    parseDocument self d = Returned (Document.addSentence d s)
    /\ forall i tok e locs,
         Sentence.tokens s !! i = Some tok ->
         Token.word tok = EmptyString ->
         (e, locs) ∈ Sentence.entityAnnotations s ->
         i ∉ locs.
Proof.
  intros Hne. destruct (head_is_Some _ Hne) as (t0 & Ht0).
  destruct (parseDocument_nonempty self d t0 Ht0)
    as (tree & types & s & Hidx & Hs & Htok & _ & _ & Hann).
  rewrite <- Htok in Hann.
  exists s. split; [exact Hs|].
  intros i tok e locs Htoki Hword Hin Hi.
  apply Hann in Hin as (id & Hlocs & _).
  apply (noEmptyLocs_lookup _ _ _ (alignTokens_noEmpty _ _)) in Hlocs
    as (<- & _).
  apply alignTokens_elem in Hi as (tok' & iv & Htok' & Hq & _).
  assert (tok' = tok) by congruence. subst tok'.
  apply query_elem in Hq as (_ & Hlt & _).
  rewrite Htok, list_lookup_fmap in Htoki.
  destruct (nlp self (Document.text d) !! i) as [t|]; [|discriminate].
  injection Htoki as <-. simpl in Hword, Hlt. rewrite Hword in Hlt.
  simpl in Hlt. lia.
Qed.

Lemma token_without_text_is_never_aligned_witness :
  exists s,
    parseDocument MoreExamples.withEmptyToken Examples.document
    = Returned (Document.addSentence Examples.document s)
    /\ forall e locs,
         (e, locs) ∈ Sentence.entityAnnotations s -> 0 ∉ locs.
Proof.
  destruct (token_without_text_is_never_aligned
              MoreExamples.withEmptyToken Examples.document)
    as (s & Hs & Hnever).
  - vm_compute. discriminate.
  - exists s. split; [exact Hs|]. intros e locs Hin.
    apply (Hnever 0 (makeToken (Examples.lexical EmptyString 3 0 1 "dep"))
             e locs); [|reflexivity|exact Hin].
    revert Hs. vm_compute. intros [= <-]. reflexivity.
Defined.

(** *** Pipeline indices *)

Lemma buildSentence_shiftIndex (d : Document.t) (tree : gset Interval)
    (ents : gmap Z Entity.t) (unit : list Spacy.Token) (c : Z) :
  buildSentence d tree ents (shiftIndex c <$> unit)
  = buildSentence d tree ents unit.
Proof.
  unfold buildSentence.
  assert (Htok : makeToken <$> (shiftIndex c <$> unit) = makeToken <$> unit).
  { rewrite <- list_fmap_compose. apply list_fmap_ext. intros j t _.
    reflexivity. }
  rewrite Htok.
  destruct (getitem (makeToken <$> unit) 0) as [e|first]; [reflexivity|].
  destruct (getitem (makeToken <$> unit) (-1)) as [e|last]; [reflexivity|].
  unfold bind.
  destruct unit as [|t0 unit]; [reflexivity|].
  change (getitem (shiftIndex c <$> t0 :: unit) 0)
    with (@inr PyErr _ (shiftIndex c t0)).
  change (getitem (t0 :: unit) 0) with (@inr PyErr _ t0).
  cbv iota beta.
  assert (Hdep : makeDependency (Spacy.i (shiftIndex c t0))
                   <$> (shiftIndex c <$> t0 :: unit)
                 = makeDependency (Spacy.i t0) <$> t0 :: unit).
  { rewrite <- list_fmap_compose. apply list_fmap_ext. intros j t _.
    unfold makeDependency, shiftIndex. simpl.
    replace (Spacy.head_i t + c - (Spacy.i t0 + c))%Z
      with (Spacy.head_i t - Spacy.i t0)%Z by lia.
    replace (Spacy.i t + c - (Spacy.i t0 + c))%Z
      with (Spacy.i t - Spacy.i t0)%Z by lia.
    reflexivity. }
  rewrite Hdep. reflexivity.
Qed.

Lemma parseDocument_shiftIndex (self self' : Parser.t) (d : Document.t)
    (c : Z) :
  nlp self' (Document.text d) = shiftIndex c <$> nlp self (Document.text d) ->
  parseDocument self' d = parseDocument self d.
Proof.
  intros Hnlp. unfold parseDocument, _sentencesGenerator. rewrite Hnlp.
  destruct (indexEntities (Document.entities d)) as [e|[tree types]];
    [reflexivity|].
  simpl. unfold parseSentence. rewrite buildSentence_shiftIndex.
  reflexivity.
Qed.

(** X18: only the differences between pipeline indices matter: two
    pipelines whose lexical items differ by a constant added to every
    index [i] and [head.i] make [parse] produce the same corpus, or the
    same exception with the same state. *)
Theorem parse_ignores_index_origin (self self' : Parser.t) (c : Corpus.t)
    (k : Z) :
  (forall d, d ∈ Corpus.documents c ->
     nlp self' (Document.text d)
     = shiftIndex k <$> nlp self (Document.text d)) ->
  parse self' c = parse self c.
Proof.
  intros Hnlp. unfold parse.
  assert (Hds : parseDocuments self' (Corpus.documents c)
                = parseDocuments self (Corpus.documents c)).
  { induction (Corpus.documents c) as [|d ds IH]; simpl; [reflexivity|].
    rewrite (parseDocument_shiftIndex self self' d k)
      by (apply Hnlp; left).
    rewrite IH; [reflexivity|].
    intros d' Hd'. apply Hnlp. right. exact Hd'. }
  rewrite Hds. reflexivity.
Qed.

Lemma parse_ignores_index_origin_witness :
  parse MoreExamples.shifted Examples.corpusWithBlank
  = parse Examples.parser Examples.corpusWithBlank.
Proof.
  apply (parse_ignores_index_origin Examples.parser MoreExamples.shifted
           Examples.corpusWithBlank 100).
  intros d Hd. reflexivity.
Defined.

(** *** The order in which a set is walked *)

Lemma foldl_ext_acc {A B} (f g : B -> A -> B) (l : list A) (b : B) :
  (forall b a, f b a = g b a) -> foldl f b l = foldl g b l.
Proof.
  intros Hfg. revert b. induction l as [|a l IH]; intros b; simpl;
    [reflexivity|].
  rewrite Hfg. apply IH.
Qed.

(** X19: the dictionary of token positions does not depend on the order
    in which the set returned by the interval tree is iterated: walking
    it in any order that lists the same intervals gives the same lists. *)
Theorem alignment_ignores_iteration_order
    (walk : gset Interval -> list Interval) (tree : gset Interval)
    (tokens : list Token.t) :
  (forall q, walk q ≡ₚ elements q) ->
  alignTokensWith walk tree tokens = alignTokens tree tokens.
Proof.
  intros Hwalk. unfold alignTokensWith, alignTokens.
  apply foldl_ext_acc. intros m [i t]. simpl.
  apply foldl_appendLoc_Permutation. apply Hwalk.
Qed.

Lemma alignment_ignores_iteration_order_witness :
  alignTokensWith (fun q => reverse (elements q))
                  {[ (36, 40, 2); (36, 38, 2); (0, 9, 1) ]}%Z
                  (makeToken <$> Examples.unit)
  = alignTokens {[ (36, 40, 2); (36, 38, 2); (0, 9, 1) ]}%Z
                (makeToken <$> Examples.unit).
Proof.
  apply (alignment_ignores_iteration_order
           (fun q => reverse (elements q))).
  intros q. apply reverse_Permutation.
Defined.

(** *** The text and the edges of the sentence *)





(** X21: when the pipeline's indices are consecutive and the head of
    every lexical item is an item of the same unit, both indices of every
    dependency of the sentence [parse] builds are positions of tokens of
    that sentence. *)
Theorem dependency_indices_are_token_positions (self : Parser.t)
    (d : Document.t) :
  nlp self (Document.text d) <> [] ->
  Spacy.consecutive (nlp self (Document.text d)) ->
  Forall (fun t => Exists (fun h => Spacy.i h = Spacy.head_i t)
                          (nlp self (Document.text d)))
         (nlp self (Document.text d)) ->
  exists s,
    parseDocument self d = Returned (Document.addSentence d s)
    /\ forall h dpt label,
         (h, dpt, label) ∈ Sentence.dependencies s ->
         (0 <= h < Z.of_nat (length (Sentence.tokens s)))%Z
         /\ (0 <= dpt < Z.of_nat (length (Sentence.tokens s)))%Z.
Proof.
  intros Hne Hcons Hheads.
  destruct (head_is_Some _ Hne) as (t0 & Ht0).
  destruct (parseDocument_nonempty self d t0 Ht0)
    as (tree & types & s & _ & Hs & Htok & Hdep & _).
  exists s. split; [exact Hs|].
  intros h dpt label Hin. rewrite Hdep in Hin.
  apply list_elem_of_fmap in Hin as (t & Heq & Ht).
  unfold makeDependency in Heq. injection Heq as -> -> ->.
  rewrite Htok, length_fmap.
  rewrite Forall_forall in Hheads.
  pose proof (Hheads t Ht) as Hhead.
  apply Exists_exists in Hhead as (hd & Hhd & Hi).
  apply list_elem_of_lookup in Ht as (k & Hk).
  apply list_elem_of_lookup in Hhd as (k' & Hk').
  rewrite <- Hi, (Hcons k t0 t Ht0 Hk), (Hcons k' t0 hd Ht0 Hk').
  apply lookup_lt_Some in Hk, Hk'. lia.
Qed.

Lemma dependency_indices_are_token_positions_witness :
  exists s,
    parseDocument Examples.parser Examples.document
    = Returned (Document.addSentence Examples.document s)
    /\ forall h dpt label,
         (h, dpt, label) ∈ Sentence.dependencies s ->
         (0 <= h < Z.of_nat (length (Sentence.tokens s)))%Z
         /\ (0 <= dpt < Z.of_nat (length (Sentence.tokens s)))%Z.
Proof.
  apply (dependency_indices_are_token_positions
           Examples.parser Examples.document).
  - vm_compute. discriminate.
  - intros k t0 t Ht0 Hk. vm_compute in Ht0. injection Ht0 as <-.
    change (nlp Examples.parser (Document.text Examples.document))
      with Examples.unit in Hk.
    unfold Examples.unit in Hk.
    repeat (destruct k as [|k]; [injection Hk as <-; reflexivity|]).
    discriminate.
  - apply (bool_decide_unpack _). vm_compute. exact I.
Defined.

End ParserExtras.
